(** * DES: a shallow embedding of [des.py] and its verified properties

    The Python class [DES] is modelled function by function.  Python
    integers are [Z], bit arrays are [list Z] (the code stores each bit as
    an int 0 or 1), [bytes]/[bytearray] values are [list byte], and an
    exception is an explicit [Raise] result.  The [debug] flag only guards
    [print] statements, so the model is the code with [debug=False]. *)

From Stdlib Require Import ZArith Lia Bool.
From Stdlib Require Import Strings.Byte.
From stdpp Require Import base tactics option list numbers.

Open Scope Z_scope.

(** ** Exceptions and results *)

Inductive exn : Type := ValueError | IndexError.

Inductive result (A : Type) : Type :=
  | Ok (a : A)
  | Raise (e : exn).
Arguments Ok {A} a.
Arguments Raise {A} e.

Global Instance result_ret : MRet result := fun A a => Ok a.
Global Instance result_bind : MBind result := fun A B f m =>
  match m with
  | Ok a => f a
  | Raise e => Raise e
  end.

(** A [for] loop over [xs] that threads the loop-carried variables [s]. *)
Fixpoint for_each {S A : Type} (xs : list A) (body : A -> S -> result S) (s : S)
  : result S :=
  match xs with
  | [] => Ok s
  | x :: xs' => s' ← body x s; for_each xs' body s'
  end.

(** ** Python sequence primitives *)

Module Py.

(** [range(start, stop, step)] for a non-zero [step]. *)
Definition range3 (start stop step : Z) : list Z :=
  let n := if 0 <? step then (stop - start + step - 1) / step
           else (start - stop - step - 1) / (- step) in
  (fun k => start + Z.of_nat k * step) <$> seq 0 (Z.to_nat n).

(** [range(n)]. *)
Definition range (n : Z) : list Z := range3 0 n 1.

(** [l[i]]: a negative index counts from the end; out of range raises. *)
Definition getitem {A : Type} (l : list A) (i : Z) : result A :=
  let j := if i <? 0 then i + Z.of_nat (length l) else i in
  if j <? 0 then Raise IndexError
  else match l !! Z.to_nat j with
       | Some x => Ok x
       | None => Raise IndexError
       end.

(** A slice bound: negative bounds count from the end, then clamp. *)
Definition bound (n : nat) (i : Z) : nat :=
  let j := if i <? 0 then i + Z.of_nat n else i in
  Z.to_nat (Z.min (Z.max j 0) (Z.of_nat n)).

(** [l[a:b]], [l[a:]] and [l[:b]]. *)
Definition slice {A : Type} (l : list A) (a b : Z) : list A :=
  let a' := bound (length l) a in
  let b' := bound (length l) b in
  take (b' - a') (drop a' l).
Definition slice_from {A : Type} (l : list A) (a : Z) : list A :=
  drop (bound (length l) a) l.
Definition slice_to {A : Type} (l : list A) (b : Z) : list A :=
  take (bound (length l) b) l.

(** [enumerate(l)]. *)
Definition enumerate {A : Type} (l : list A) : list (Z * A) :=
  zip (Z.of_nat <$> seq 0 (length l)) l.

(** [len(l)]. *)
Definition len {A : Type} (l : list A) : Z := Z.of_nat (length l).

(** The int value of an element of a [bytes] object. *)
Definition int_of_byte (b : byte) : Z := Z.of_N (Byte.to_N b).

(** Storing an int into a [bytes]/[bytearray]: outside [range(256)]
    raises [ValueError]. *)
Definition byte_of_int (v : Z) : result byte :=
  if v <? 0 then Raise ValueError
  else match Byte.of_N (Z.to_N v) with
       | Some b => Ok b
       | None => Raise ValueError
       end.

End Py.

(** ** The class [DES] *)

Module DES.
Import Py.

Definition IP : list Z :=
  [58; 50; 42; 34; 26; 18; 10; 2;
   60; 52; 44; 36; 28; 20; 12; 4;
   62; 54; 46; 38; 30; 22; 14; 6;
   64; 56; 48; 40; 32; 24; 16; 8;
   57; 49; 41; 33; 25; 17; 9; 1;
   59; 51; 43; 35; 27; 19; 11; 3;
   61; 53; 45; 37; 29; 21; 13; 5;
   63; 55; 47; 39; 31; 23; 15; 7].

Definition IP_INV : list Z :=
  [40; 8; 48; 16; 56; 24; 64; 32;
   39; 7; 47; 15; 55; 23; 63; 31;
   38; 6; 46; 14; 54; 22; 62; 30;
   37; 5; 45; 13; 53; 21; 61; 29;
   36; 4; 44; 12; 52; 20; 60; 28;
   35; 3; 43; 11; 51; 19; 59; 27;
   34; 2; 42; 10; 50; 18; 58; 26;
   33; 1; 41; 9; 49; 17; 57; 25].

Definition E : list Z :=
  [32; 1; 2; 3; 4; 5;
   4; 5; 6; 7; 8; 9;
   8; 9; 10; 11; 12; 13;
   12; 13; 14; 15; 16; 17;
   16; 17; 18; 19; 20; 21;
   20; 21; 22; 23; 24; 25;
   24; 25; 26; 27; 28; 29;
   28; 29; 30; 31; 32; 1].

Definition PC1 : list Z :=
  [57; 49; 41; 33; 25; 17; 9;
   1; 58; 50; 42; 34; 26; 18;
   10; 2; 59; 51; 43; 35; 27;
   19; 11; 3; 60; 52; 44; 36;
   63; 55; 47; 39; 31; 23; 15;
   7; 62; 54; 46; 38; 30; 22;
   14; 6; 61; 53; 45; 37; 29;
   21; 13; 5; 28; 20; 12; 4].

Definition PC2 : list Z :=
  [14; 17; 11; 24; 1; 5;
   3; 28; 15; 6; 21; 10;
   23; 19; 12; 4; 26; 8;
   16; 7; 27; 20; 13; 2;
   41; 52; 31; 37; 47; 55;
   30; 40; 51; 45; 33; 48;
   44; 49; 39; 56; 34; 53;
   46; 42; 50; 36; 29; 32].

Definition SHIFT_SCHEDULE : list Z :=
  [1; 1; 2; 2; 2; 2; 2; 2; 1; 2; 2; 2; 2; 2; 2; 1].

Definition S_BOXES : list (list (list Z)) :=
  [ (* S1 *)
    [ [14; 4; 13; 1; 2; 15; 11; 8; 3; 10; 6; 12; 5; 9; 0; 7];
      [0; 15; 7; 4; 14; 2; 13; 1; 10; 6; 12; 11; 9; 5; 3; 8];
      [4; 1; 14; 8; 13; 6; 2; 11; 15; 12; 9; 7; 3; 10; 5; 0];
      [15; 12; 8; 2; 4; 9; 1; 7; 5; 11; 3; 14; 10; 0; 6; 13] ];
    (* S2 *)
    [ [15; 1; 8; 14; 6; 11; 3; 4; 9; 7; 2; 13; 12; 0; 5; 10];
      [3; 13; 4; 7; 15; 2; 8; 14; 12; 0; 1; 10; 6; 9; 11; 5];
      [0; 14; 7; 11; 10; 4; 13; 1; 5; 8; 12; 6; 9; 3; 2; 15];
      [13; 8; 10; 1; 3; 15; 4; 2; 11; 6; 7; 12; 0; 5; 14; 9] ];
    (* S3 *)
    [ [10; 0; 9; 14; 6; 3; 15; 5; 1; 13; 12; 7; 11; 4; 2; 8];
      [13; 7; 0; 9; 3; 4; 6; 10; 2; 8; 5; 14; 12; 11; 15; 1];
      [13; 6; 4; 9; 8; 15; 3; 0; 11; 1; 2; 12; 5; 10; 14; 7];
      [1; 10; 13; 0; 6; 9; 8; 7; 4; 15; 14; 3; 11; 5; 2; 12] ];
    (* S4 *)
    [ [7; 13; 14; 3; 0; 6; 9; 10; 1; 2; 8; 5; 11; 12; 4; 15];
      [13; 8; 11; 5; 6; 15; 0; 3; 4; 7; 2; 12; 1; 10; 14; 9];
      [10; 6; 9; 0; 12; 11; 7; 13; 15; 1; 3; 14; 5; 2; 8; 4];
      [3; 15; 0; 6; 10; 1; 13; 8; 9; 4; 5; 11; 12; 7; 2; 14] ];
    (* S5 *)
    [ [2; 12; 4; 1; 7; 10; 11; 6; 8; 5; 3; 15; 13; 0; 14; 9];
      [14; 11; 2; 12; 4; 7; 13; 1; 5; 0; 15; 10; 3; 9; 8; 6];
      [4; 2; 1; 11; 10; 13; 7; 8; 15; 9; 12; 5; 6; 3; 0; 14];
      [11; 8; 12; 7; 1; 14; 2; 13; 6; 15; 0; 9; 10; 4; 5; 3] ];
    (* S6 *)
    [ [12; 1; 10; 15; 9; 2; 6; 8; 0; 13; 3; 4; 14; 7; 5; 11];
      [10; 15; 4; 2; 7; 12; 9; 5; 6; 1; 13; 14; 0; 11; 3; 8];
      [9; 14; 15; 5; 2; 8; 12; 3; 7; 0; 4; 10; 1; 13; 11; 6];
      [4; 3; 2; 12; 9; 5; 15; 10; 11; 14; 1; 7; 6; 0; 8; 13] ];
    (* S7 *)
    [ [4; 11; 2; 14; 15; 0; 8; 13; 3; 12; 9; 7; 5; 10; 6; 1];
      [13; 0; 11; 7; 4; 9; 1; 10; 14; 3; 5; 12; 2; 15; 8; 6];
      [1; 4; 11; 13; 12; 3; 7; 14; 10; 15; 6; 8; 0; 5; 9; 2];
      [6; 11; 13; 8; 1; 4; 10; 7; 9; 5; 0; 15; 14; 2; 3; 12] ];
    (* S8 *)
    [ [13; 2; 8; 4; 6; 15; 11; 1; 10; 9; 3; 14; 5; 0; 12; 7];
      [1; 15; 13; 8; 10; 3; 7; 4; 12; 5; 6; 11; 0; 14; 9; 2];
      [7; 11; 4; 1; 9; 12; 14; 2; 0; 6; 10; 13; 15; 3; 5; 8];
      [2; 1; 14; 7; 4; 10; 8; 13; 15; 12; 9; 0; 3; 5; 6; 11] ] ].

Definition P : list Z :=
  [16; 7; 20; 21;
   29; 12; 28; 17;
   1; 15; 23; 26;
   5; 18; 31; 10;
   2; 8; 24; 14;
   32; 27; 3; 9;
   19; 13; 30; 6;
   22; 11; 4; 25].

(** An instance: the key as a bit array and the sixteen round keys. *)
Record t : Type := mk { key : list Z; subkeys : list (list Z) }.

(** [_bytes_to_bit_array]: eight bits per byte, most significant first. *)
Definition _bytes_to_bit_array (data : list byte) : list Z :=
  flat_map (fun b =>
              (fun i => Z.land (Z.shiftr (int_of_byte b) i) 1)
                <$> range3 7 (-1) (-1))
           data.

(** [_bit_array_to_bytes]: one byte per started group of eight bits. *)
Definition _bit_array_to_bytes (bits : list Z) : result (list byte) :=
  for_each (range3 0 (len bits) 8)
    (fun i res =>
       v ← for_each (range 8)
             (fun j acc => b ← getitem bits (i + j); Ok (Z.lor (Z.shiftl acc 1) b))
             0;
       b ← byte_of_int v;
       Ok (res ++ [b]))
    [].

(** [_permute]: [[block[table[i] - 1] for i in range(len(table))]]. *)
Definition _permute (block table : list Z) : result (list Z) :=
  mapM (fun i => t ← getitem table i; getitem block (t - 1))
       (range (len table)).

Definition _initial_permutation (block : list Z) := _permute block IP.
Definition _inverse_initial_permutation (block : list Z) := _permute block IP_INV.
Definition _expansion (block : list Z) := _permute block E.
Definition _permuted_choice_1 (k : list Z) := _permute k PC1.
Definition _permuted_choice_2 (k : list Z) := _permute k PC2.
Definition _permutation_p (block : list Z) := _permute block P.

(** [_left_circular_shift]: [bits[shift:] + bits[:shift]]. *)
Definition _left_circular_shift (bits : list Z) (shift : Z) : list Z :=
  slice_from bits shift ++ slice_to bits shift.

(** [_generate_subkeys], reading [self.key]. *)
Definition _generate_subkeys (self_key : list Z) : result (list (list Z)) :=
  key_56 ← _permuted_choice_1 self_key;
  let c := slice_to key_56 28 in
  let d := slice_from key_56 28 in
  '(_, _, sks) ← for_each (range 16)
    (fun i '(c, d, sks) =>
       shift ← getitem SHIFT_SCHEDULE i;
       let c := _left_circular_shift c shift in
       let d := _left_circular_shift d shift in
       let cd := c ++ d in
       subkey ← _permuted_choice_2 cd;
       Ok (c, d, sks ++ [subkey]))
    (c, d, []);
  Ok sks.

(** [__init__]. *)
Definition new (k : list byte) : result t :=
  if negb (len k =? 8) then Raise ValueError
  else
    let self_key := _bytes_to_bit_array k in
    sks ← _generate_subkeys self_key;
    Ok (mk self_key sks).

(** [_xor]: [[a[i] ^ b[i] for i in range(len(a))]]. *)
Definition _xor (a b : list Z) : result (list Z) :=
  mapM (fun i => x ← getitem a i; y ← getitem b i; Ok (Z.lxor x y))
       (range (len a)).

(** [_s_box_substitution], the body of its loop: the four output bits of
    S-box [i] for one six-bit [group]. *)
Definition s_box_group (i : Z) (group : list Z) : result (list Z) :=
  g0 ← getitem group 0;
  g5 ← getitem group 5;
  let row := Z.lor (Z.shiftl g0 1) g5 in
  g1 ← getitem group 1;
  g2 ← getitem group 2;
  g3 ← getitem group 3;
  g4 ← getitem group 4;
  let col := Z.lor (Z.lor (Z.lor (Z.shiftl g1 3) (Z.shiftl g2 2))
                          (Z.shiftl g3 1)) g4 in
  box ← getitem S_BOXES i;
  box_row ← getitem box row;
  value ← getitem box_row col;
  Ok ((fun j => Z.land (Z.shiftr value j) 1) <$> range3 3 (-1) (-1)).

(** [_s_box_substitution]. *)
Definition _s_box_substitution (block : list Z) : result (list Z) :=
  let groups := (fun i => slice block i (i + 6)) <$> range3 0 48 6 in
  for_each (enumerate groups)
    (fun '(i, group) res =>
       out ← s_box_group i group;
       Ok (res ++ out))
    [].

(** [_f_function]. *)
Definition _f_function (r subkey : list Z) : result (list Z) :=
  expanded ← _expansion r;
  xored ← _xor expanded subkey;
  substituted ← _s_box_substitution xored;
  _permutation_p substituted.

(** [_des_round]. *)
Definition _des_round (left right subkey : list Z)
  : result (list Z * list Z) :=
  f_result ← _f_function right subkey;
  new_right ← _xor left f_result;
  let new_left := right in
  Ok (new_left, new_right).

(** [encrypt_block]. *)
Definition encrypt_block (self : t) (plaintext_block : list Z)
  : result (list Z) :=
  block ← _initial_permutation plaintext_block;
  let left := slice_to block 32 in
  let right := slice_from block 32 in
  '(left, right) ← for_each (range 16)
    (fun i '(left, right) =>
       sk ← getitem (subkeys self) i;
       _des_round left right sk)
    (left, right);
  let final_block := right ++ left in
  _inverse_initial_permutation final_block.

(** [decrypt_block]: the same rounds with [self.subkeys[15-i]]. *)
Definition decrypt_block (self : t) (ciphertext_block : list Z)
  : result (list Z) :=
  block ← _initial_permutation ciphertext_block;
  let left := slice_to block 32 in
  let right := slice_from block 32 in
  '(left, right) ← for_each (range 16)
    (fun i '(left, right) =>
       sk ← getitem (subkeys self) (15 - i);
       _des_round left right sk)
    (left, right);
  let final_block := right ++ left in
  _inverse_initial_permutation final_block.

(** The block loop shared in shape by [encrypt] and [decrypt]:
    [for i in range(0, len(data), 8)], each slice [data[i:i+8]] goes
    through [block_fn] and the bytes are appended to the output. *)
Definition block_loop (block_fn : list Z -> result (list Z))
    (data : list byte) : result (list byte) :=
  for_each (range3 0 (len data) 8)
    (fun i out =>
       let block := slice data i (i + 8) in
       let bit_block := _bytes_to_bit_array block in
       new_bit_block ← block_fn bit_block;
       new_block ← _bit_array_to_bytes new_bit_block;
       Ok (out ++ new_block))
    [].

(** [encrypt], lines 471-474: the padding step. *)
Definition pad (plaintext : list byte) : result (list byte) :=
  let padding_length := 8 - (len plaintext) mod 8 in
  if padding_length <? 8 then
    b ← byte_of_int padding_length;
    Ok (plaintext ++ replicate (Z.to_nat padding_length) b)
  else Ok plaintext.

(** [encrypt]. *)
Definition encrypt (self : t) (plaintext : list byte) : result (list byte) :=
  plaintext ← pad plaintext;
  block_loop (encrypt_block self) plaintext.

(** [decrypt], line 511: the condition under which padding is removed. *)
Definition strip_cond (plaintext : list byte) (padding_length : Z) : bool :=
  (padding_length <? 8)
  && forallb (fun b => int_of_byte b =? padding_length)
             (slice_from plaintext (- padding_length)).

(** [decrypt], lines 509-512: the "remove padding" step. *)
Definition unpad (plaintext : list byte) : result (list byte) :=
  last_byte ← getitem plaintext (-1);
  let padding_length := int_of_byte last_byte in
  if strip_cond plaintext padding_length
  then Ok (slice_to plaintext (- padding_length))
  else Ok plaintext.

(** [decrypt]. *)
Definition decrypt (self : t) (ciphertext : list byte) : result (list byte) :=
  if negb ((len ciphertext) mod 8 =? 0) then Raise ValueError
  else
    plaintext ← block_loop (decrypt_block self) ciphertext;
    unpad plaintext.

End DES.

Import Py DES.

(** ** Test vector *)

Definition key_fips : list byte :=
  [x13; x34; x57; x79; x9b; xbc; xdf; xf1].
Definition pt_fips : list byte :=
  [x01; x23; x45; x67; x89; xab; xcd; xef].
Definition ct_fips : list byte :=
  [x85; xe8; x13; x54; x0f; x0a; xb4; x05].

(** A message of one whole block whose last byte is 1, the ciphertext of
    the all-zero block under [key_fips], and the instance built from
    [key_fips]. *)
Definition msg_tail1 : list byte :=
  [x41; x42; x43; x44; x45; x46; x47; x01].
Definition ct_zero : list byte :=
  [x94; x8a; x43; xf9; x8a; x83; x4f; x7e].
Definition self_fips : DES.t :=
  match DES.new key_fips with
  | Ok self => self
  | Raise _ => DES.mk [] []
  end.

(** A weak key: every round key it generates is the same. *)
Definition key_weak : list byte :=
  [x01; x01; x01; x01; x01; x01; x01; x01].
Definition self_weak : DES.t :=
  match DES.new key_weak with
  | Ok self => self
  | Raise _ => DES.mk [] []
  end.

(** ** [network_communication.py] *)

Module Net.
Import Py.

(** [int.from_bytes(bs, byteorder='big')]. *)
Definition from_bytes (bs : list byte) : Z :=
  foldl (fun a b => 256 * a + int_of_byte b) 0 bs.


(** A connected stream socket as [sendall] and [recv] see it: the bytes
    written so far, and the segments in which the incoming bytes will be
    handed out by successive [recv] calls.  No segment left means the
    peer has closed the connection. *)
Record socket : Type := mk_socket {
  sent : list byte;
  arriving : list (list byte)
}.


(** [sock.recv(bufsize)]: at most [bufsize] bytes of the next segment,
    the rest of it staying for the next call; [b''] once the peer has
    closed. *)
Definition recv (s : socket) (bufsize : Z) : list byte * socket :=
  match arriving s with
  | [] => ([], s)
  | seg :: rest =>
      if len seg <=? bufsize then (seg, mk_socket (sent s) rest)
      else (slice_to seg bufsize,
            mk_socket (sent s) (slice_from seg bufsize :: rest))
  end.

(** [DESCommunicator]: the cipher and the connection ([None] until
    [connect] or [accept_connection] has succeeded). *)
Record t : Type := mk { des : DES.t; connection : option socket }.

(** [DESCommunicator.__init__]. *)
Definition new (k : list byte) : result t :=
  d ← DES.new k;
  Ok (mk d None).

Definition decrypt_message (self : t) (encrypted_message : list byte)
  : result (list byte) :=
  DES.decrypt (des self) encrypted_message.


(** The [while remaining > 0] loop of [receive_message].  Every
    iteration that goes on takes at least one byte off [remaining], so
    [fuel = remaining] is enough; [OutOfFuel] marks the case that is
    never reached. *)
Inductive loop_result : Type :=
  | Received (encrypted_message : list byte) (conn : socket)
  | Closed (conn : socket)
  | OutOfFuel.

Fixpoint recv_loop (fuel : nat) (conn : socket)
    (encrypted_message : list byte) (remaining : Z) : loop_result :=
  if 0 <? remaining then
    match fuel with
    | O => OutOfFuel
    | S fuel' =>
        let '(chunk, conn) := recv conn (Z.min 4096 remaining) in
        match chunk with
        | [] => Closed conn
        | _ :: _ =>
            recv_loop fuel' conn (encrypted_message ++ chunk)
                      (remaining - len chunk)
        end
    end
  else Received encrypted_message conn.

(** [receive_message()]: the decrypted message, or [None]. *)
Definition receive_message (self : t) : option (list byte) * t :=
  match connection self with
  | None => (None, self)
  | Some conn =>
      let '(length_bytes, conn) := recv conn 4 in
      match length_bytes with
      | [] => (None, mk (des self) (Some conn))
      | _ :: _ =>
          let message_length := from_bytes length_bytes in
          match recv_loop (Z.to_nat message_length) conn [] message_length with
          | Received encrypted_message conn =>
              match decrypt_message self encrypted_message with
              | Ok decrypted => (Some decrypted, mk (des self) (Some conn))
              | Raise _ => (None, mk (des self) (Some conn))
              end
          | Closed conn => (None, mk (des self) (Some conn))
          | OutOfFuel => (None, mk (des self) (Some conn))
          end
      end
  end.

End Net.

(** ** Proof-side vocabulary *)

(** A bit array of width [n]: [n] entries, each the int 0 or 1. *)
Definition is_bit (b : Z) : Prop := b = 0 \/ b = 1.
Definition bits (n : nat) (l : list Z) : Prop :=
  length l = n /\ Forall is_bit l.

(** Entry [t] of a permutation table read against [block], as a total
    function; [table_ok n table] checks that every entry is in [1..n]. *)
Definition sel (block : list Z) (t : Z) : Z :=
  default 0 (block !! Z.to_nat (t - 1)).
Definition table_ok (n : Z) (table : list Z) : bool :=
  forallb (fun t => (1 <=? t) && (t <=? n)) table.

(** Boolean form of "[r] is [Ok] of a bit array of width [n]". *)
Definition ok_bits (n : nat) (r : result (list Z)) : bool :=
  match r with
  | Ok out => (length out =? n)%nat && forallb (fun b => (b =? 0) || (b =? 1)) out
  | Raise _ => false
  end.

(** The state of the Feistel network: two 32-bit halves.  [rounds ks]
    runs [_des_round] once per key of [ks], in order. *)
Definition halves (s : list Z * list Z) : Prop :=
  bits 32 s.1 /\ bits 32 s.2.
Definition swap (s : list Z * list Z) : list Z * list Z := (s.2, s.1).
Definition rounds (ks : list (list Z)) (s : list Z * list Z)
  : result (list Z * list Z) :=
  for_each ks (fun k '(l, r) => _des_round l r k) s.

(** What [_generate_subkeys] establishes about an instance. *)
Definition wf_keys (self : DES.t) : Prop :=
  length (subkeys self) = 16%nat /\ Forall (bits 48) (subkeys self).

(** The key schedule as the specification words it (section 4.3, step
    3): round [i] shifts by one position in rounds 1, 2, 9 and 16 and by
    two otherwise; a left circular shift by one moves the first bit to the
    end; the halves of round [i] are those of round [i-1] shifted. *)
Definition spec_shift (i : nat) : nat :=
  if bool_decide (i = 1 \/ i = 2 \/ i = 9 \/ i = 16)%nat then 1%nat else 2%nat.
Definition rotl1 (l : list Z) : list Z :=
  match l with
  | [] => []
  | x :: t => t ++ [x]
  end.
Definition rotl (n : nat) (l : list Z) : list Z := Nat.iter n rotl1 l.
Fixpoint spec_half (h0 : list Z) (i : nat) : list Z :=
  match i with
  | O => h0
  | Datatypes.S j => rotl (spec_shift i) (spec_half h0 j)
  end.

(** The [k]-th eight-byte block of a buffer. *)
Definition chunk (k : nat) (data : list byte) : list byte :=
  take 8 (drop (8 * k) data).

(** The padding-strip rule as the specification words it (section 4.6):
    read the last byte value [P]; if [P < 8] and the final [P] bytes are
    all equal to [P], drop them; otherwise leave the buffer as it is. *)
Definition spec_strip (buf : list byte) : list byte :=
  match list.last buf with
  | None => buf
  | Some p =>
      let P := Z.to_nat (int_of_byte p) in
      let final := drop (length buf - P) buf in
      if (P <? 8)%nat && forallb (fun b => int_of_byte b =? int_of_byte p) final
      then take (length buf - P) buf
      else buf
  end.

(** A 64-bit block read as an unsigned integer, first bit most
    significant. *)
Definition int_of_bits (l : list Z) : Z := foldl (fun a b => 2 * a + b) 0 l.

(** The complement of a bit and of a byte. *)
Definition cpl (b : Z) : Z := 1 - b.
Definition cpl_byte (b : byte) : byte :=
  default x00 (Byte.of_N (255 - Byte.to_N b)).

(** The eight bits of one byte, as [_bytes_to_bit_array] emits them. *)
Definition byte_bits (b : byte) : list Z :=
  (fun i => Z.land (Z.shiftr (int_of_byte b) i) 1) <$> range3 7 (-1) (-1).

(** The bytes still to come on a connection, and the condition under
    which [recv] returns no empty chunk before the peer has closed: no
    segment is empty. *)
Definition pending (s : Net.socket) : list byte := concat (Net.arriving s).
Definition live (s : Net.socket) : Prop :=
  Forall (fun seg : list byte => seg <> []) (Net.arriving s).

Definition conn_fips : Net.socket :=
  Net.mk_socket [] [[x00; x00; x00; x08; x85; xe8];
                    [x13; x54; x0f; x0a; xb4; x05]; [x00; x00]].
Definition receiver_fips : Net.t := Net.mk self_fips (Some conn_fips).

(** A list of known length is an explicit list of variables. *)
Ltac explode l H :=
  repeat (destruct l as [|? l]; [discriminate H|]);
  destruct l; [clear H|discriminate H].

(** ** The error monad and loops *)

Section monad.
Context {A B : Type}.

Lemma bind_Ok (m : result A) (f : A -> result B) (b : B) :
  m ≫= f = Ok b <-> exists a, m = Ok a /\ f a = Ok b.
Proof.
  destruct m as [a|e]; simpl; split.
  - eauto.
  - by intros (a' & [= ->] & ?).
  - done.
  - by intros (a' & ? & ?).
Qed.

Lemma Ok_bind (a : A) (f : A -> result B) : Ok a ≫= f = f a.
Proof. done. Qed.

Lemma mapM_Ok (f : A -> result B) (g : A -> B) (l : list A) :
  (forall x, x ∈ l -> f x = Ok (g x)) -> mapM f l = Ok (g <$> l).
Proof.
  induction l as [|x l IH]; intros Hf; [done|].
  simpl. rewrite (Hf x) by left. simpl.
  rewrite IH; [done|]. intros y Hy. apply Hf. by right.
Qed.
End monad.

Section loops.
Context {S A : Type}.
Implicit Types (xs : list A) (body : A -> S -> result S).

Lemma for_each_app xs ys body s :
  for_each (xs ++ ys) body s = s' ← for_each xs body s; for_each ys body s'.
Proof.
  revert s; induction xs as [|x xs IH]; intros s; [done|].
  simpl. destruct (body x s); simpl; auto.
Qed.

Lemma for_each_ext xs body1 body2 s :
  (forall x s, x ∈ xs -> body1 x s = body2 x s) ->
  for_each xs body1 s = for_each xs body2 s.
Proof.
  revert s; induction xs as [|x xs IH]; intros s Hb; [done|].
  simpl. rewrite Hb by left. destruct (body2 x s); simpl; [|done].
  apply IH. intros y s' Hy. apply Hb. by right.
Qed.

(** Loop invariant indexed by the number of iterations done. *)
Lemma for_each_inv (I : nat -> S -> Prop) xs body s :
  I 0%nat s ->
  (forall i x s, xs !! i = Some x -> I i s ->
                 exists s', body x s = Ok s' /\ I (Datatypes.S i) s') ->
  exists s', for_each xs body s = Ok s' /\ I (length xs) s'.
Proof.
  revert I s; induction xs as [|x xs IH]; intros I s H0 Hstep.
  - by exists s.
  - destruct (Hstep 0%nat x s) as (s1 & Hb & H1); [done..|].
    simpl. rewrite Hb. simpl.
    apply (IH (fun i => I (Datatypes.S i))); [done|].
    intros i y s2 Hy Hi. by apply (Hstep (Datatypes.S i)).
Qed.
End loops.

(** ** Python primitives on in-range arguments *)

Section py.
Context {A : Type}.
Implicit Types (l : list A).

Lemma getitem_nat l (i : nat) x :
  l !! i = Some x -> getitem l (Z.of_nat i) = Ok x.
Proof.
  intros H. unfold getitem.
  destruct (Z.ltb_spec (Z.of_nat i) 0) as [?|_]; [lia|].
  destruct (Z.ltb_spec (Z.of_nat i) 0) as [?|_]; [lia|].
  by rewrite Nat2Z.id, H.
Qed.

Lemma getitem_last l x : getitem (l ++ [x]) (-1) = Ok x.
Proof.
  unfold getitem. simpl. rewrite length_app. simpl.
  destruct (Z.ltb_spec (-1 + Z.of_nat (length l + 1)) 0) as [?|_]; [lia|].
  replace (Z.to_nat (-1 + Z.of_nat (length l + 1))) with (length l) by lia.
  by rewrite list_lookup_middle.
Qed.

Lemma bound_nat (n i : nat) : (i <= n)%nat -> bound n (Z.of_nat i) = i.
Proof.
  intros H. unfold bound.
  destruct (Z.ltb_spec (Z.of_nat i) 0); lia.
Qed.

Lemma bound_neg (n i : nat) :
  (0 < i <= n)%nat -> bound n (- Z.of_nat i) = (n - i)%nat.
Proof.
  intros H. unfold bound.
  destruct (Z.ltb_spec (- Z.of_nat i) 0); lia.
Qed.

Lemma slice_nat l (a b : nat) :
  (a <= b <= length l)%nat ->
  slice l (Z.of_nat a) (Z.of_nat b) = take (b - a) (drop a l).
Proof. intros H. unfold slice. by rewrite !bound_nat by lia. Qed.

Lemma slice_from_nat l (a : nat) :
  (a <= length l)%nat -> slice_from l (Z.of_nat a) = drop a l.
Proof. intros H. unfold slice_from. by rewrite bound_nat. Qed.

Lemma slice_to_nat l (b : nat) :
  (b <= length l)%nat -> slice_to l (Z.of_nat b) = take b l.
Proof. intros H. unfold slice_to. by rewrite bound_nat. Qed.

Lemma enumerate_lookup l (i : nat) x :
  l !! i = Some x -> enumerate l !! i = Some (Z.of_nat i, x).
Proof.
  intros H. unfold enumerate.
  apply lookup_zip_with_Some. exists (Z.of_nat i), x. split_and!; [done| |done].
  rewrite list_lookup_fmap.
  assert (seq 0 (length l) !! i = Some i) as ->; [|done].
  apply lookup_seq. split; [done|]. by eapply lookup_lt_Some.
Qed.

Lemma length_enumerate l : length (enumerate l) = length l.
Proof.
  unfold enumerate. rewrite length_zip_with, length_fmap, length_seq. lia.
Qed.
End py.

Lemma range_nat (n : nat) : range (Z.of_nat n) = Z.of_nat <$> seq 0 n.
Proof.
  unfold range, range3. simpl.
  replace (Z.of_nat n - 0 + 1 - 1) with (Z.of_nat n) by lia.
  rewrite Z.div_1_r, Nat2Z.id.
  apply list_fmap_ext. intros _ k _. lia.
Qed.

Lemma range3_blocks (n : nat) :
  range3 0 (Z.of_nat (8 * n)) 8 = (fun k => Z.of_nat (8 * k)) <$> seq 0 n.
Proof.
  unfold range3. change (0 <? 8) with true. cbv iota zeta.
  replace ((Z.of_nat (8 * n) - 0 + 8 - 1) / 8) with (Z.of_nat n).
  - rewrite Nat2Z.id. apply list_fmap_ext. intros _ k _. lia.
  - apply Z.div_unique with (r := 7); lia.
Qed.

(** A comprehension over [range(len(l))] that starts by reading [l[i]]
    is a map over [l] itself. *)
Lemma mapM_range_Ok {B : Type} (f : Z -> result B) (g : nat -> B) (n : nat) :
  (forall i : nat, (i < n)%nat -> f (Z.of_nat i) = Ok (g i)) ->
  mapM f (range (Z.of_nat n)) = Ok (g <$> seq 0 n).
Proof.
  intros H. rewrite range_nat.
  rewrite (mapM_Ok f (fun z => g (Z.to_nat z))).
  - f_equal. rewrite <- list_fmap_compose. apply list_fmap_ext.
    intros _ k _. simpl. by rewrite Nat2Z.id.
  - intros z Hz. apply list_elem_of_fmap in Hz as (k & -> & Hk).
    apply list_elem_of_lookup in Hk as (j & Hj).
    apply lookup_seq in Hj as [-> Hlt]. rewrite Nat2Z.id. by apply H.
Qed.

(** ** Bit arrays *)

Lemma is_bit_land1 (v : Z) : is_bit (Z.land v 1).
Proof.
  unfold is_bit. change (Z.land v 1) with (Z.land v (Z.ones 1)).
  rewrite Z.land_ones by lia.
  change (2 ^ 1) with 2. pose proof (Z.mod_pos_bound v 2 eq_refl). lia.
Qed.

Lemma is_bit_lxor (a b : Z) : is_bit a -> is_bit b -> is_bit (Z.lxor a b).
Proof. by intros [-> | ->] [-> | ->]; [left|right|right|left]. Qed.

Lemma bits_app n m l k : bits n l -> bits m k -> bits (n + m) (l ++ k).
Proof.
  intros [Hl Fl] [Hk Fk]. split.
  - rewrite length_app. lia.
  - by apply Forall_app.
Qed.

Lemma bits_take n m l : (m <= n)%nat -> bits n l -> bits m (take m l).
Proof.
  intros Hm [Hl Fl]. split.
  - rewrite length_take. lia.
  - by apply Forall_take.
Qed.

Lemma bits_drop n m l : bits n l -> bits (n - m) (drop m l).
Proof.
  intros [Hl Fl]. split.
  - rewrite length_drop. lia.
  - by apply Forall_drop.
Qed.

(** ** Permutations *)

Lemma fmap_seq_lookup {A B : Type} (d : A) (h : A -> B) (l : list A) :
  (fun i => h (default d (l !! i))) <$> seq 0 (length l) = h <$> l.
Proof.
  apply list_eq. intros i. rewrite !list_lookup_fmap.
  destruct (l !! i) as [x|] eqn:E.
  - assert (seq 0 (length l) !! i = Some i) as ->.
    { apply lookup_seq. split; [done|]. by eapply lookup_lt_Some. }
    simpl. by rewrite E.
  - assert (seq 0 (length l) !! i = None) as ->; [|done].
    apply lookup_ge_None. rewrite length_seq. by apply lookup_ge_None.
Qed.

Lemma table_ok_Forall n table :
  table_ok n table = true -> Forall (fun t => 1 <= t <= n) table.
Proof.
  unfold table_ok. rewrite forallb_forall, Forall_forall.
  intros H t Ht. specialize (H t Ht). lia.
Qed.

Lemma getitem_sel (block : list Z) (t : Z) :
  1 <= t <= len block -> getitem block (t - 1) = Ok (sel block t).
Proof.
  intros Ht. unfold len in Ht. unfold sel.
  destruct (lookup_lt_is_Some_2 block (Z.to_nat (t - 1))) as [x Hx]; [lia|].
  rewrite Hx. simpl. replace (t - 1) with (Z.of_nat (Z.to_nat (t - 1))) by lia.
  by apply getitem_nat.
Qed.

Lemma permute_Ok block table :
  table_ok (len block) table = true ->
  _permute block table = Ok (sel block <$> table).
Proof.
  intros Hok%table_ok_Forall. unfold _permute, len at 1.
  rewrite (mapM_range_Ok _ (fun i => sel block (default 0 (table !! i)))).
  - by rewrite fmap_seq_lookup.
  - intros i Hi. destruct (lookup_lt_is_Some_2 table i Hi) as [t Ht].
    rewrite (getitem_nat _ _ _ Ht), Ht. simpl.
    apply getitem_sel. by eapply Forall_lookup_1 in Hok.
Qed.

Lemma permute_bits n block table :
  bits n block -> table_ok (Z.of_nat n) table = true ->
  bits (length table) (sel block <$> table).
Proof.
  intros [Hl Fb] Hok%table_ok_Forall. split; [by rewrite length_fmap|].
  apply Forall_fmap. eapply Forall_impl; [|exact Hok].
  intros t Ht. simpl in *. unfold sel.
  destruct (lookup_lt_is_Some_2 block (Z.to_nat (t - 1))) as [x Hx]; [lia|].
  rewrite Hx. simpl. by eapply Forall_lookup_1 in Fb.
Qed.

Lemma IP_then_IP_INV (B : list Z) :
  length B = 64%nat -> sel (sel B <$> IP) <$> IP_INV = B.
Proof. intros H. explode B H. reflexivity. Qed.

Lemma IP_INV_then_IP (B : list Z) :
  length B = 64%nat -> sel (sel B <$> IP_INV) <$> IP = B.
Proof. intros H. explode B H. reflexivity. Qed.

(** ** XOR of bit arrays *)

Lemma xor_Ok (a b : list Z) :
  (length a <= length b)%nat -> _xor a b = Ok (zip_with Z.lxor a b).
Proof.
  intros Hlen. unfold _xor, len.
  rewrite (mapM_range_Ok _
             (fun i => Z.lxor (default 0 (a !! i)) (default 0 (b !! i)))).
  - f_equal. apply list_eq. intros i. rewrite list_lookup_fmap, lookup_zip_with.
    destruct (a !! i) as [x|] eqn:Ea.
    + assert (seq 0 (length a) !! i = Some i) as ->.
      { apply lookup_seq. split; [done|]. by eapply lookup_lt_Some. }
      destruct (lookup_lt_is_Some_2 b i) as [y Hy].
      { apply lookup_lt_Some in Ea. lia. }
      simpl. by rewrite Ea, Hy.
    + assert (seq 0 (length a) !! i = None) as ->; [|done].
      apply lookup_ge_None. rewrite length_seq. by apply lookup_ge_None.
  - intros i Hi.
    destruct (lookup_lt_is_Some_2 a i Hi) as [x Hx].
    destruct (lookup_lt_is_Some_2 b i) as [y Hy]; [lia|].
    by rewrite (getitem_nat _ _ _ Hx), (getitem_nat _ _ _ Hy), Hx, Hy.
Qed.

Lemma xor_bits n (a b : list Z) :
  bits n a -> bits n b -> bits n (zip_with Z.lxor a b).
Proof.
  intros [Ha Fa] [Hb Fb]. split.
  - rewrite length_zip_with. lia.
  - apply Forall_lookup. intros i z Hz.
    apply lookup_zip_with_Some in Hz as (x & y & -> & Hx & Hy).
    apply is_bit_lxor; [exact (Forall_lookup_1 _ _ _ _ Fa Hx)|].
    exact (Forall_lookup_1 _ _ _ _ Fb Hy).
Qed.

Lemma xor_cancel (a f : list Z) :
  (length a <= length f)%nat ->
  zip_with Z.lxor (zip_with Z.lxor a f) f = a.
Proof.
  revert f; induction a as [|x a IH]; intros [|y f] Hlen; simpl in *;
    [done|done|lia|].
  rewrite IH by lia. f_equal.
  by rewrite Z.lxor_assoc, Z.lxor_nilpotent, Z.lxor_0_r.
Qed.

(** ** The S-boxes *)

Lemma slice_bits n (l : list Z) (a : nat) (m : nat) :
  bits n l -> (a + m <= n)%nat ->
  bits m (slice l (Z.of_nat a) (Z.of_nat a + Z.of_nat m)).
Proof.
  intros Hb Hle. pose proof Hb as [Hl _].
  rewrite <- Nat2Z.inj_add, slice_nat by lia.
  replace (a + m - a)%nat with m by lia.
  eapply bits_take; [|by apply bits_drop]. lia.
Qed.

Lemma ok_bits_spec n (r : result (list Z)) :
  ok_bits n r = true -> exists out, r = Ok out /\ bits n out.
Proof.
  destruct r as [out|e]; simpl; [|done].
  intros [Hl Hf]%andb_prop. exists out. split; [done|]. split.
  - by apply Nat.eqb_eq.
  - apply Forall_forall. intros b Hb.
    rewrite forallb_forall in Hf. apply Hf in Hb. unfold is_bit. lia.
Qed.

Lemma s_box_group_Ok (i : Z) (group : list Z) :
  0 <= i < 8 -> bits 6 group ->
  exists out, s_box_group i group = Ok out /\ bits 4 out.
Proof.
  intros Hi [Hl Fg]. apply ok_bits_spec.
  explode group Hl.
  repeat match goal with
         | H : Forall _ (_ :: _) |- _ => inversion_clear H
         end.
  assert (i = 0 \/ i = 1 \/ i = 2 \/ i = 3 \/ i = 4 \/ i = 5 \/ i = 6 \/ i = 7)
    as Hcases by lia.
  repeat match goal with
         | H : is_bit _ |- _ => destruct H as [-> | ->]
         end;
    decompose [or] Hcases; subst i; vm_compute; reflexivity.
Qed.

Lemma s_box_substitution_Ok (block : list Z) :
  bits 48 block ->
  exists out, _s_box_substitution block = Ok out /\ bits 32 out.
Proof.
  intros Hb. unfold _s_box_substitution.
  change (range3 0 48 6) with
    ((fun k => Z.of_nat (6 * k)) <$> seq 0 8).
  rewrite <- list_fmap_compose.
  match goal with |- context [for_each ?xs ?body _] =>
    destruct (for_each_inv (fun k res => bits (4 * k) res) xs body [])
      as (out & Hout & Hinv)
  end.
  - by split.
  - intros k [i' g] res Hk [Hres Fres].
    assert (k < 8)%nat as Hk8.
    { apply lookup_lt_Some in Hk.
      by rewrite length_enumerate, length_fmap, length_seq in Hk. }
    pose (g0 := slice block (Z.of_nat (6 * k)) (Z.of_nat (6 * k) + Z.of_nat 6)).
    assert (enumerate
              ((fun i => slice block i (i + 6))
               ∘ (fun k => Z.of_nat (6 * k)) <$> seq 0 8) !! k
            = Some (Z.of_nat k, g0)) as Hk'.
    { apply enumerate_lookup. rewrite list_lookup_fmap.
      assert (seq 0 8 !! k = Some k) as ->; [|done].
      apply lookup_seq. by split. }
    rewrite Hk in Hk'. injection Hk' as -> ->.
    destruct (s_box_group_Ok (Z.of_nat k) g0) as (o & Ho & Hob); [lia| |].
    { apply slice_bits with (n := 48%nat); [done|lia]. }
    rewrite Ho. simpl. eexists; split; [done|].
    destruct (bits_app (4 * k) 4 res o) as [Hlen Hall]; [done..|].
    split; [lia|done].
  - rewrite length_enumerate, length_fmap, length_seq in Hinv. eauto.
Qed.

(** ** The round function *)

Lemma permute_bits_Ok n block table :
  bits n block -> table_ok (Z.of_nat n) table = true ->
  _permute block table = Ok (sel block <$> table)
  /\ bits (length table) (sel block <$> table).
Proof.
  intros Hb Hok. split; [|by eapply permute_bits].
  apply permute_Ok. unfold len. by rewrite (proj1 Hb).
Qed.

Lemma f_function_Ok (r k : list Z) :
  bits 32 r -> bits 48 k ->
  exists f, _f_function r k = Ok f /\ bits 32 f.
Proof.
  intros Hr Hk. unfold _f_function, _expansion, _permutation_p.
  destruct (permute_bits_Ok 32 r E Hr eq_refl) as [-> He].
  rewrite Ok_bind, xor_Ok, Ok_bind.
  2:{ rewrite (proj1 He), (proj1 Hk). done. }
  destruct (s_box_substitution_Ok (zip_with Z.lxor (sel r <$> E) k))
    as (sub & -> & Hsub); [by apply xor_bits|].
  rewrite Ok_bind.
  destruct (permute_bits_Ok 32 sub P Hsub eq_refl) as [-> Hp]. eauto.
Qed.

Lemma des_round_Ok (l r k : list Z) :
  bits 32 l -> bits 32 r -> bits 48 k ->
  exists f, _f_function r k = Ok f /\ bits 32 f
            /\ _des_round l r k = Ok (r, zip_with Z.lxor l f).
Proof.
  intros Hl Hr Hk. destruct (f_function_Ok r k Hr Hk) as (f & Hf & Hfb).
  exists f. split_and!; [done..|].
  unfold _des_round. rewrite Hf, Ok_bind, xor_Ok; [done|].
  by rewrite (proj1 Hl), (proj1 Hfb).
Qed.

(** The sixteen rounds as a loop over the round keys themselves. *)
Lemma for_each_indexed {S A : Type} (idx : list Z) (ys : list A)
    (f : Z -> result A) (body : A -> S -> result S) (s : S) :
  Forall2 (fun i y => f i = Ok y) idx ys ->
  for_each idx (fun i s => y ← f i; body y s) s = for_each ys body s.
Proof.
  intros H. revert s. induction H as [|i y idx ys Hi _ IH]; intros s; [done|].
  simpl. rewrite Hi. simpl. destruct (body y s); simpl; auto.
Qed.

Lemma rounds_forward (ks : list (list Z)) (s : list Z * list Z) :
  length ks = 16%nat ->
  for_each (range 16)
    (fun i '(l, r) => sk ← getitem ks i; _des_round l r sk) s
  = rounds ks s.
Proof.
  intros H. unfold rounds.
  rewrite <- (for_each_indexed (range 16) ks (getitem ks)).
  - apply for_each_ext. by intros i [l r] _.
  - explode ks H. repeat constructor.
Qed.

Lemma rounds_backward (ks : list (list Z)) (s : list Z * list Z) :
  length ks = 16%nat ->
  for_each (range 16)
    (fun i '(l, r) => sk ← getitem ks (15 - i); _des_round l r sk) s
  = rounds (reverse ks) s.
Proof.
  intros H. unfold rounds.
  rewrite <- (for_each_indexed (range 16) (reverse ks)
                (fun i => getitem ks (15 - i))).
  - apply for_each_ext. by intros i [l r] _.
  - explode ks H. repeat constructor.
Qed.

Lemma rounds_undo (ks : list (list Z)) (s s' : list Z * list Z) :
  Forall (bits 48) ks -> halves s ->
  rounds ks s = Ok s' ->
  halves s' /\ rounds (reverse ks) (swap s') = Ok (swap s).
Proof.
  intros Hks. revert s. induction Hks as [|k ks Hk _ IH]; intros [l r] [Hl Hr];
    simpl in Hl, Hr.
  - intros [= <-]. by split.
  - unfold rounds. simpl.
    destruct (des_round_Ok l r k Hl Hr Hk) as (f & Hf & Hfb & ->). simpl.
    intros Hrest. apply IH in Hrest as [Hs' Hback].
    2:{ split; [done|]. by apply xor_bits. }
    split; [done|]. rewrite reverse_cons. unfold rounds in *.
    rewrite for_each_app, Hback. simpl.
    destruct (des_round_Ok (zip_with Z.lxor l f) r k) as (f' & Hf' & _ & ->);
      [by apply xor_bits|done..|].
    rewrite Hf in Hf'. injection Hf' as <-.
    rewrite xor_cancel by (rewrite (proj1 Hl), (proj1 Hfb); done). done.
Qed.

Lemma rounds_Ok (ks : list (list Z)) (s : list Z * list Z) :
  Forall (bits 48) ks -> halves s ->
  exists s', rounds ks s = Ok s' /\ halves s'.
Proof.
  intros Hks. revert s. induction Hks as [|k ks Hk _ IH]; intros [l r] [Hl Hr];
    simpl in Hl, Hr.
  - exists (l, r). by split.
  - unfold rounds. simpl.
    destruct (des_round_Ok l r k Hl Hr Hk) as (f & Hf & Hfb & ->). simpl.
    apply IH. split; [done|]. by apply xor_bits.
Qed.

(** ** One block *)

Lemma halves_split (X : list Z) :
  bits 64 X ->
  slice_to X 32 = take 32 X /\ slice_from X 32 = drop 32 X
  /\ halves (take 32 X, drop 32 X).
Proof.
  intros HX. pose proof HX as [HL _].
  change 32 with (Z.of_nat 32).
  rewrite slice_to_nat, slice_from_nat by lia. split_and!; [done..|].
  split; simpl.
  - apply (bits_take 64); [lia|done].
  - by apply (bits_drop 64 32).
Qed.

Lemma halves_join (l r : list Z) :
  bits 32 l -> bits 32 r ->
  bits 64 (r ++ l)
  /\ slice_to (r ++ l) 32 = r /\ slice_from (r ++ l) 32 = l.
Proof.
  intros Hl Hr. pose proof (bits_app 32 32 r l Hr Hl) as Hrl.
  split; [done|]. pose proof Hrl as [HL _]. pose proof Hr as [HR _].
  change 32 with (Z.of_nat 32).
  rewrite slice_to_nat, slice_from_nat by lia.
  rewrite <- HR. by rewrite take_app_length, drop_app_length.
Qed.

(** [encrypt_block] succeeds on every 64-bit block and [decrypt_block]
    takes its result back: the reversed key order undoes the rounds one
    by one, and the two outer permutations cancel. *)
Lemma block_roundtrip (self : DES.t) (B : list Z) :
  wf_keys self -> bits 64 B ->
  exists C, encrypt_block self B = Ok C /\ bits 64 C
            /\ decrypt_block self C = Ok B.
Proof.
  intros [Hn Hks] HB.
  unfold encrypt_block, decrypt_block,
    _initial_permutation, _inverse_initial_permutation.
  destruct (permute_bits_Ok 64 B IP HB eq_refl) as [-> HX].
  set (X := sel B <$> IP) in *. rewrite Ok_bind.
  destruct (halves_split X HX) as (-> & -> & Hs).
  rewrite rounds_forward by done.
  destruct (rounds_Ok _ _ Hks Hs) as ([l r] & Hfw & Hl & Hr). simpl in Hl, Hr.
  rewrite Hfw, Ok_bind.
  destruct (halves_join l r Hl Hr) as (Hrl & Hto & Hfrom).
  destruct (permute_bits_Ok 64 (r ++ l) IP_INV Hrl eq_refl) as [-> HC].
  eexists. split; [done|]. split; [done|].
  destruct (permute_bits_Ok 64 _ IP HC eq_refl) as [-> _].
  rewrite Ok_bind, IP_INV_then_IP by apply Hrl.
  rewrite Hto, Hfrom, rounds_backward by done.
  apply rounds_undo in Hfw as [_ Hbw]; [|done..].
  unfold swap in Hbw. cbn [fst snd] in Hbw. rewrite Hbw, Ok_bind, take_drop.
  destruct (permute_bits_Ok 64 X IP_INV HX eq_refl) as [-> _].
  f_equal. apply IP_then_IP_INV, HB.
Qed.

(** ** The key schedule *)

Lemma byte_bits_bits (b : byte) : bits 8 (byte_bits b).
Proof.
  split; [done|]. apply Forall_fmap, Forall_forall. intros i _.
  apply is_bit_land1.
Qed.

Lemma bytes_to_bit_array_cons (b : byte) (data : list byte) :
  _bytes_to_bit_array (b :: data) = byte_bits b ++ _bytes_to_bit_array data.
Proof. done. Qed.

Lemma bytes_to_bit_array_bits (data : list byte) :
  bits (8 * length data) (_bytes_to_bit_array data).
Proof.
  induction data as [|b data IH]; [by split|].
  rewrite bytes_to_bit_array_cons.
  replace (8 * length (b :: data))%nat with (8 + 8 * length data)%nat
    by (simpl; lia).
  apply bits_app; [apply byte_bits_bits|done].
Qed.

Lemma left_circular_shift_rotl (l : list Z) (s : nat) :
  (s <= length l)%nat -> _left_circular_shift l (Z.of_nat s) = rotl s l.
Proof.
  intros Hs. unfold _left_circular_shift.
  rewrite slice_from_nat, slice_to_nat by done.
  induction s as [|s IH]; [by rewrite drop_0, app_nil_r|].
  unfold rotl in *. simpl. rewrite <- IH by lia.
  destruct (lookup_lt_is_Some_2 l s) as [x Hx]; [lia|].
  rewrite (drop_S _ _ _ Hx), (take_S_r _ _ _ Hx). simpl.
  by rewrite <- app_assoc.
Qed.

Lemma rotl_bits n (l : list Z) (s : nat) :
  (s <= n)%nat -> bits n l -> bits n (rotl s l).
Proof.
  intros Hs Hl. rewrite <- left_circular_shift_rotl by (rewrite (proj1 Hl); lia).
  unfold _left_circular_shift.
  rewrite slice_from_nat, slice_to_nat by (rewrite (proj1 Hl); lia).
  replace n with (n - s + s)%nat at 1 by lia.
  apply bits_app; [by apply bits_drop|by apply (bits_take n)].
Qed.

Lemma spec_shift_le (i : nat) : (spec_shift i <= 28)%nat.
Proof. unfold spec_shift. case_bool_decide; lia. Qed.

Lemma spec_half_bits (h0 : list Z) (i : nat) :
  bits 28 h0 -> bits 28 (spec_half h0 i).
Proof.
  intros H. induction i as [|i IH]; [done|].
  simpl. apply rotl_bits; [apply spec_shift_le|done].
Qed.

Lemma shift_schedule_spec (k : nat) :
  (k < 16)%nat ->
  getitem SHIFT_SCHEDULE (Z.of_nat k) = Ok (Z.of_nat (spec_shift (Datatypes.S k))).
Proof.
  intros Hk. do 16 (destruct k as [|k]; [reflexivity|]). lia.
Qed.

Lemma range_lookup (n k : nat) (x : Z) :
  range (Z.of_nat n) !! k = Some x -> x = Z.of_nat k /\ (k < n)%nat.
Proof.
  rewrite range_nat, list_lookup_fmap. intros H.
  apply fmap_Some in H as (j & Hj & ->).
  apply lookup_seq in Hj as [-> ?]. by split.
Qed.

(** [_generate_subkeys] on a 64-bit key: sixteen 48-bit round keys, the
    [i]-th being PC2 of the two halves after the shifts of rounds
    [1..i]. *)
Lemma generate_subkeys_spec (kb : list Z) :
  bits 64 kb ->
  exists key_56 sks,
    _permuted_choice_1 kb = Ok key_56 /\ bits 56 key_56
    /\ _generate_subkeys kb = Ok sks /\ length sks = 16%nat
    /\ forall i, (i < 16)%nat ->
         exists sk, sks !! i = Some sk /\ bits 48 sk
           /\ _permuted_choice_2
                (spec_half (slice_to key_56 28) (Datatypes.S i)
                 ++ spec_half (slice_from key_56 28) (Datatypes.S i))
              = Ok sk.
Proof.
  intros Hkb. unfold _generate_subkeys, _permuted_choice_1.
  destruct (permute_bits_Ok 64 kb PC1 Hkb eq_refl) as [-> H56].
  set (key_56 := sel kb <$> PC1) in *. change (length PC1) with 56%nat in H56.
  exists key_56. rewrite Ok_bind.
  assert (bits 28 (slice_to key_56 28) /\ bits 28 (slice_from key_56 28))
    as [Hc0 Hd0].
  { change 28 with (Z.of_nat 28).
    rewrite slice_to_nat, slice_from_nat by (rewrite (proj1 H56); lia).
    split; [apply (bits_take 56); [lia|done]|by apply (bits_drop 56 28)]. }
  set (c0 := slice_to key_56 28) in *. set (d0 := slice_from key_56 28) in *.
  match goal with |- context [for_each ?xs ?body ?s] =>
    destruct (for_each_inv
      (fun k '(c, d, sks) =>
         c = spec_half c0 k /\ d = spec_half d0 k /\ length sks = k
         /\ forall i, (i < k)%nat ->
              exists sk, sks !! i = Some sk /\ bits 48 sk
                /\ _permuted_choice_2
                     (spec_half c0 (Datatypes.S i) ++ spec_half d0 (Datatypes.S i))
                   = Ok sk)
      xs body s) as ([[c d] sks] & -> & Hinv)
  end.
  - split_and!; [done..|]. intros i Hi. lia.
  - intros k x [[c d] sks] Hx (-> & -> & Hlen & Hsks).
    change 16 with (Z.of_nat 16) in Hx. apply range_lookup in Hx as [-> Hk].
    rewrite shift_schedule_spec, Ok_bind by done.
    pose proof (spec_half_bits c0 k Hc0) as Hc.
    pose proof (spec_half_bits d0 k Hd0) as Hd.
    pose proof (spec_shift_le (Datatypes.S k)) as Hle.
    rewrite !left_circular_shift_rotl by (rewrite (proj1 Hc) || rewrite (proj1 Hd); done).
    change (rotl (spec_shift (Datatypes.S k)) (spec_half c0 k))
      with (spec_half c0 (Datatypes.S k)).
    change (rotl (spec_shift (Datatypes.S k)) (spec_half d0 k))
      with (spec_half d0 (Datatypes.S k)).
    pose proof (bits_app 28 28 _ _ (spec_half_bits c0 (Datatypes.S k) Hc0)
                  (spec_half_bits d0 (Datatypes.S k) Hd0)) as Hcd.
    unfold _permuted_choice_2 in *.
    destruct (permute_bits_Ok 56 _ PC2 Hcd eq_refl) as [Hp Hpb].
    rewrite Hp, Ok_bind. eexists. split; [done|].
    split_and!; [done..|rewrite length_app; simpl; lia|].
    intros i Hi. destruct (decide (i = k)) as [->|Hne].
    + eexists. split_and!; [|exact Hpb|exact Hp].
      rewrite lookup_app_r by lia. by rewrite Hlen, Nat.sub_diag.
    + destruct (Hsks i) as (sk & Hsk & Hskb & Hsp); [lia|].
      exists sk. split_and!; [|done..]. by apply lookup_app_l_Some.
  - destruct Hinv as (_ & _ & Hlen & Hsks).
    change (length (range 16)) with 16%nat in *.
    rewrite Ok_bind. by exists sks.
Qed.

(** [__init__] on an eight-byte key. *)
Lemma new_spec (K : list byte) :
  length K = 8%nat ->
  exists self key_56,
    DES.new K = Ok self /\ key self = _bytes_to_bit_array K
    /\ _permuted_choice_1 (key self) = Ok key_56
    /\ length (subkeys self) = 16%nat
    /\ forall i, (i < 16)%nat ->
         exists sk, subkeys self !! i = Some sk /\ bits 48 sk
           /\ _permuted_choice_2
                (spec_half (slice_to key_56 28) (Datatypes.S i)
                 ++ spec_half (slice_from key_56 28) (Datatypes.S i))
              = Ok sk.
Proof.
  intros HK. unfold DES.new, len. rewrite HK. simpl negb. cbv iota.
  pose proof (bytes_to_bit_array_bits K) as Hkb. rewrite HK in Hkb.
  destruct (generate_subkeys_spec _ Hkb)
    as (key_56 & sks & H56 & _ & -> & Hlen & Hsks).
  rewrite Ok_bind. by exists (DES.mk (_bytes_to_bit_array K) sks), key_56.
Qed.

Lemma new_Ok (K : list byte) :
  length K = 8%nat ->
  exists self, DES.new K = Ok self /\ wf_keys self.
Proof.
  intros HK.
  destruct (new_spec K HK) as (self & key_56 & Hnew & _ & _ & Hlen & Hsks).
  exists self. split; [done|]. split; [done|].
  apply Forall_lookup. intros i sk Hi.
  destruct (Hsks i) as (sk' & Hsk' & Hb & _).
  { apply lookup_lt_Some in Hi. lia. }
  congruence.
Qed.

(** ** Bytes and bit arrays *)

Lemma bit_lookup (bs : list byte) (k j : nat) (b : byte) :
  bs !! k = Some b -> (j < 8)%nat ->
  _bytes_to_bit_array bs !! (8 * k + j)%nat = byte_bits b !! j.
Proof.
  revert k; induction bs as [|b0 bs IH]; intros k Hk Hj; [done|].
  rewrite bytes_to_bit_array_cons. destruct k as [|k].
  - injection Hk as ->. rewrite lookup_app_l; [by rewrite Nat.add_0_l|].
    rewrite (proj1 (byte_bits_bits b)). lia.
  - rewrite lookup_app_r by (rewrite (proj1 (byte_bits_bits b0)); lia).
    rewrite (proj1 (byte_bits_bits b0)).
    replace (8 * S k + j - 8)%nat with (8 * k + j)%nat by lia.
    by apply IH.
Qed.

(** The inner loop of [_bit_array_to_bytes] rebuilds a byte from its own
    eight bits. *)
Lemma byte_of_byte_bits (b : byte) :
  (v ← for_each (range 8)
         (fun j acc => x ← getitem (byte_bits b) j; Ok (Z.lor (Z.shiftl acc 1) x))
         0;
   byte_of_int v) = Ok b.
Proof. destruct b; vm_compute; reflexivity. Qed.

Lemma bit_array_to_bytes_of_bytes (bs : list byte) :
  _bit_array_to_bytes (_bytes_to_bit_array bs) = Ok bs.
Proof.
  unfold _bit_array_to_bytes, len.
  rewrite (proj1 (bytes_to_bit_array_bits bs)), range3_blocks.
  match goal with |- for_each ?xs ?body ?s = _ =>
    destruct (for_each_inv (fun k res => res = take k bs) xs body s)
      as (res & -> & ->)
  end.
  - done.
  - intros k x res Hx ->. rewrite list_lookup_fmap in Hx.
    apply fmap_Some in Hx as (k' & Hk' & ->).
    apply lookup_seq in Hk' as [-> Hk]. simpl in Hk.
    destruct (lookup_lt_is_Some_2 bs k Hk) as [b Hb].
    rewrite (for_each_ext _ _
      (fun j acc => x ← getitem (byte_bits b) j; Ok (Z.lor (Z.shiftl acc 1) x))).
    + pose proof (byte_of_byte_bits b) as Hbyte.
      apply bind_Ok in Hbyte as (v & Hv & Hbv).
      rewrite Hv, Ok_bind, Hbv, Ok_bind. eexists. split; [done|]. by rewrite (take_S_r _ _ _ Hb).
    + intros j acc Hj. apply list_elem_of_lookup in Hj as [i Hi].
      change 8 with (Z.of_nat 8) in Hi. apply range_lookup in Hi as [-> Hi].
      destruct (lookup_lt_is_Some_2 (byte_bits b) i) as [y Hy].
      { by rewrite (proj1 (byte_bits_bits b)). }
      rewrite <- Nat2Z.inj_add.
      rewrite (getitem_nat _ _ y), (getitem_nat _ _ y); [done|done|].
      by rewrite Nat.add_0_l, (bit_lookup _ _ _ _ Hb).
  - rewrite length_fmap, length_seq. f_equal. by apply take_ge.
Qed.

Lemma byte_bits_surj (c : list Z) : bits 8 c -> exists b, byte_bits b = c.
Proof.
  intros [Hl Hf]. explode c Hl.
  repeat match goal with
         | H : Forall _ (_ :: _) |- _ => inversion_clear H
         end.
  repeat match goal with
         | H : is_bit _ |- _ => destruct H as [-> | ->]
         end;
    match goal with
    | |- exists b, _ = ?c =>
        exists (default x00
                  (Byte.of_N (Z.to_N (foldl (fun a x => 2 * a + x) 0 c))))
    end;
    vm_compute; reflexivity.
Qed.

Lemma bits_are_bytes (n : nat) (l : list Z) :
  bits (8 * n) l ->
  exists bs, length bs = n /\ _bytes_to_bit_array bs = l.
Proof.
  revert l; induction n as [|n IH]; intros l Hl.
  - exists []. split; [done|]. destruct Hl as [Hl _]. by destruct l.
  - rewrite <- (take_drop 8 l).
    destruct (byte_bits_surj (take 8 l)) as [b Hb].
    { apply (bits_take (8 * S n)); [lia|done]. }
    destruct (IH (drop 8 l)) as (bs & Hlen & Hbs).
    { replace (8 * n)%nat with (8 * S n - 8)%nat by lia. by apply bits_drop. }
    exists (b :: bs). split; [simpl; lia|].
    by rewrite bytes_to_bit_array_cons, Hb, Hbs.
Qed.

(** ** The block loop *)

Lemma slice_chunk (data : list byte) (k n : nat) :
  length data = (8 * n)%nat -> (k < n)%nat ->
  slice data (Z.of_nat (8 * k)) (Z.of_nat (8 * k) + 8) = chunk k data
  /\ length (chunk k data) = 8%nat.
Proof.
  intros Hlen Hk.
  change (Z.of_nat (8 * k) + 8) with (Z.of_nat (8 * k) + Z.of_nat 8).
  rewrite <- Nat2Z.inj_add, slice_nat by lia. unfold chunk.
  replace (8 * k + 8 - 8 * k)%nat with 8%nat by lia. split; [done|].
  rewrite length_take, length_drop. lia.
Qed.

Lemma chunk_app_l (out blk : list byte) (j k : nat) :
  length out = (8 * k)%nat -> (j < k)%nat ->
  chunk j (out ++ blk) = chunk j out.
Proof.
  intros Hlen Hj. unfold chunk.
  rewrite drop_app_le, take_app_le by (rewrite ?length_drop; lia). done.
Qed.

Lemma chunk_app_r (out blk : list byte) (k : nat) :
  length out = (8 * k)%nat -> length blk = 8%nat ->
  chunk k (out ++ blk) = blk.
Proof.
  intros Hlen Hblk. unfold chunk.
  rewrite drop_app_length' by done. apply take_ge. lia.
Qed.

Lemma blocks_lookup (n k : nat) (x : Z) :
  ((fun k => Z.of_nat (8 * k)) <$> seq 0 n) !! k = Some x ->
  x = Z.of_nat (8 * k) /\ (k < n)%nat.
Proof.
  rewrite list_lookup_fmap. intros H.
  apply fmap_Some in H as (j & Hj & ->).
  apply lookup_seq in Hj as [-> ?]. by split.
Qed.

(** The loop produces [target] when every block of [data] is taken to
    the block of [target] at the same position. *)
Lemma block_loop_chunks (f : list Z -> result (list Z))
    (data target : list byte) (n : nat) :
  length data = (8 * n)%nat -> length target = (8 * n)%nat ->
  (forall k, (k < n)%nat ->
     exists nb, f (_bytes_to_bit_array (chunk k data)) = Ok nb
                /\ _bit_array_to_bytes nb = Ok (chunk k target)) ->
  block_loop f data = Ok target.
Proof.
  intros Hdata Htarget Hblk. unfold block_loop, len.
  rewrite Hdata, range3_blocks.
  match goal with |- for_each ?xs ?body ?s = _ =>
    destruct (for_each_inv (fun k out => out = take (8 * k) target) xs body s)
      as (out & -> & ->)
  end.
  - done.
  - intros k x out Hx ->. apply blocks_lookup in Hx as [-> Hk].
    destruct (slice_chunk data k n Hdata Hk) as [-> _].
    destruct (Hblk k Hk) as (nb & -> & Hnb).
    rewrite Ok_bind, Hnb, Ok_bind. eexists. split; [done|].
    unfold chunk. rewrite take_take_drop. f_equal. lia.
  - rewrite length_fmap, length_seq. f_equal. apply take_ge. lia.
Qed.

(** A block function that is total on 64-bit blocks makes the loop total
    on whole blocks. *)
Lemma block_loop_Ok (f : list Z -> result (list Z)) (data : list byte) (n : nat) :
  (forall B, bits 64 B -> exists C, f B = Ok C /\ bits 64 C) ->
  length data = (8 * n)%nat ->
  exists out, block_loop f data = Ok out /\ length out = (8 * n)%nat.
Proof.
  intros Hf Hdata. unfold block_loop, len. rewrite Hdata, range3_blocks.
  match goal with |- exists _, for_each ?xs ?body ?s = _ /\ _ =>
    destruct (for_each_inv (fun k out => length out = (8 * k)%nat) xs body s)
      as (out & -> & Hout)
  end.
  - done.
  - intros k x out Hx Hout. apply blocks_lookup in Hx as [-> Hk].
    destruct (slice_chunk data k n Hdata Hk) as [-> Hc].
    destruct (Hf (_bytes_to_bit_array (chunk k data))) as (C & -> & HC).
    { pose proof (bytes_to_bit_array_bits (chunk k data)) as H.
      by rewrite Hc in H. }
    destruct (bits_are_bytes 8 C HC) as (cb & Hcb & <-).
    rewrite Ok_bind, bit_array_to_bytes_of_bytes, Ok_bind.
    eexists. split; [done|]. rewrite length_app. lia.
  - rewrite length_fmap, length_seq in Hout. eauto.
Qed.

Lemma decrypt_block_Ok (self : DES.t) (C : list Z) :
  wf_keys self -> bits 64 C ->
  exists B, decrypt_block self C = Ok B /\ bits 64 B.
Proof.
  intros [Hn Hks] HC.
  unfold decrypt_block, _initial_permutation, _inverse_initial_permutation.
  destruct (permute_bits_Ok 64 C IP HC eq_refl) as [-> HX].
  set (X := sel C <$> IP) in *. rewrite Ok_bind.
  destruct (halves_split X HX) as (-> & -> & Hs).
  rewrite rounds_backward by done.
  assert (Forall (bits 48) (reverse (subkeys self))) as Hrev
    by (by apply Forall_reverse).
  destruct (rounds_Ok _ _ Hrev Hs) as ([l r] & -> & Hl & Hr). simpl in Hl, Hr.
  rewrite Ok_bind.
  destruct (halves_join l r Hl Hr) as (Hrl & _ & _).
  destruct (permute_bits_Ok 64 (r ++ l) IP_INV Hrl eq_refl) as [-> HB]. eauto.
Qed.

(** Encrypting whole blocks and decrypting the result gives the blocks
    back. *)
Lemma block_loop_roundtrip (self : DES.t) (data : list byte) (n : nat) :
  wf_keys self -> length data = (8 * n)%nat ->
  exists ct, block_loop (encrypt_block self) data = Ok ct
             /\ length ct = (8 * n)%nat
             /\ block_loop (decrypt_block self) ct = Ok data.
Proof.
  intros Hwf Hdata.
  assert (exists ct, block_loop (encrypt_block self) data = Ok ct
            /\ length ct = (8 * n)%nat
            /\ forall k, (k < n)%nat ->
                 exists nb,
                   decrypt_block self (_bytes_to_bit_array (chunk k ct)) = Ok nb
                   /\ _bit_array_to_bytes nb = Ok (chunk k data))
    as (ct & Hct & Hlen & Hback).
  { unfold block_loop, len. rewrite Hdata, range3_blocks.
    match goal with |- exists _, for_each ?xs ?body ?s = _ /\ _ =>
      destruct (for_each_inv
        (fun k out =>
           length out = (8 * k)%nat
           /\ forall j, (j < k)%nat ->
                exists nb,
                  decrypt_block self (_bytes_to_bit_array (chunk j out)) = Ok nb
                  /\ _bit_array_to_bytes nb = Ok (chunk j data))
        xs body s) as (out & -> & Hout)
    end.
    - split; [done|]. intros j Hj. lia.
    - intros k x out Hx [Hout Hprev]. apply blocks_lookup in Hx as [-> Hk].
      destruct (slice_chunk data k n Hdata Hk) as [-> Hc].
      destruct (block_roundtrip self (_bytes_to_bit_array (chunk k data)))
        as (C & -> & HC & Hdec); [done|..].
      { pose proof (bytes_to_bit_array_bits (chunk k data)) as H.
        by rewrite Hc in H. }
      destruct (bits_are_bytes 8 C HC) as (cb & Hcb & <-).
      rewrite Ok_bind, bit_array_to_bytes_of_bytes, Ok_bind.
      eexists. split; [done|]. split; [rewrite length_app; lia|].
      intros j Hj. destruct (decide (j = k)) as [->|Hne].
      + rewrite chunk_app_r by done. eexists. split; [exact Hdec|].
        apply bit_array_to_bytes_of_bytes.
      + rewrite (chunk_app_l _ _ j k) by (done || lia). apply Hprev. lia.
    - rewrite length_fmap, length_seq in Hout. destruct Hout. eauto. }
  exists ct. split_and!; [done..|].
  by apply block_loop_chunks with (n := n).
Qed.

(** ** Padding *)

Lemma getitem_minus_1 {A : Type} (l : list A) (x : A) :
  list.last l = Some x -> getitem l (-1) = Ok x.
Proof.
  intros H. destruct (decide (l = [])) as [->|Hne]; [done|].
  destruct (exists_last Hne) as (l' & y & ->).
  rewrite last_snoc in H. injection H as ->. apply getitem_last.
Qed.

Lemma byte_of_int_pad (p : nat) :
  (1 <= p <= 7)%nat ->
  exists b, byte_of_int (Z.of_nat p) = Ok b /\ int_of_byte b = Z.of_nat p.
Proof.
  intros Hp. do 8 (destruct p as [|p]; [try lia; by eexists|]). lia.
Qed.

Lemma pad_aligned (M : list byte) :
  (length M mod 8 = 0)%nat -> pad M = Ok M.
Proof.
  intros H. unfold pad, len.
  replace (Z.of_nat (length M) mod 8) with 0; [done|].
  change 8 with (Z.of_nat 8). rewrite <- Nat2Z.inj_mod. lia.
Qed.

Lemma pad_unaligned (M : list byte) :
  (length M mod 8 <> 0)%nat ->
  exists (p : nat) (b : byte),
    (1 <= p <= 7)%nat /\ p = (8 - length M mod 8)%nat
    /\ int_of_byte b = Z.of_nat p
    /\ pad M = Ok (M ++ replicate p b).
Proof.
  intros H. pose proof (Nat.mod_upper_bound (length M) 8) as Hub.
  set (p := (8 - length M mod 8)%nat).
  destruct (byte_of_int_pad p) as (b & Hb & Hv); [lia|].
  exists p, b. split_and!; [lia..|done|].
  unfold pad, len.
  replace (8 - Z.of_nat (length M) mod 8) with (Z.of_nat p).
  - destruct (Z.ltb_spec (Z.of_nat p) 8) as [_|?]; [|lia].
    by rewrite Hb, Ok_bind, Nat2Z.id.
  - change 8 with (Z.of_nat 8). rewrite <- Nat2Z.inj_mod. lia.
Qed.

Lemma unpad_padded (M : list byte) (p : nat) (b : byte) :
  (1 <= p <= 7)%nat -> int_of_byte b = Z.of_nat p ->
  unpad (M ++ replicate p b) = Ok M.
Proof.
  intros Hp Hb. unfold unpad.
  rewrite (getitem_minus_1 _ b).
  2:{ destruct p as [|p]; [lia|].
      rewrite replicate_S_end, app_assoc. apply last_snoc. }
  rewrite Ok_bind, Hb. unfold strip_cond, slice_from, slice_to.
  rewrite bound_neg by (rewrite length_app, length_replicate; lia).
  rewrite length_app, length_replicate.
  replace (length M + p - p)%nat with (length M) by lia.
  rewrite drop_app_length, take_app_length.
  destruct (Z.ltb_spec (Z.of_nat p) 8) as [_|?]; [|lia].
  rewrite (proj2 (forallb_forall _ _)); [done|].
  intros x Hx%list_elem_of_In%elem_of_replicate_inv. subst x. lia.
Qed.

Lemma unpad_kept (M : list byte) (p : byte) :
  list.last M = Some p -> strip_cond M (int_of_byte p) = false ->
  unpad M = Ok M.
Proof.
  intros Hlast Hcond. unfold unpad.
  by rewrite (getitem_minus_1 _ p Hlast), Ok_bind, Hcond.
Qed.

(** ** [encrypt] and [decrypt] *)

Lemma aligned_blocks (M : list byte) :
  (length M mod 8 = 0)%nat -> exists n, length M = (8 * n)%nat.
Proof.
  intros H. exists (length M / 8)%nat.
  pose proof (Nat.div_mod_eq (length M) 8). lia.
Qed.

Lemma decrypt_aligned (self : DES.t) (ct : list byte) :
  (length ct mod 8 = 0)%nat ->
  decrypt self ct = plaintext ← block_loop (decrypt_block self) ct; unpad plaintext.
Proof.
  intros H. unfold decrypt, len.
  replace (Z.of_nat (length ct) mod 8) with 0; [done|].
  change 8 with (Z.of_nat 8). rewrite <- Nat2Z.inj_mod. lia.
Qed.

Lemma decrypt_unaligned (self : DES.t) (ct : list byte) :
  (length ct mod 8 <> 0)%nat -> decrypt self ct = Raise ValueError.
Proof.
  intros H. unfold decrypt, len.
  destruct (Z.eqb_spec (Z.of_nat (length ct) mod 8) 0) as [Hz|]; [|done].
  change 8 with (Z.of_nat 8) in Hz. rewrite <- Nat2Z.inj_mod in Hz. lia.
Qed.

(** [encrypt] never fails; [decrypt] of its output runs the strip step
    on the padded plaintext. *)
Lemma encrypt_then_decrypt (self : DES.t) (M : list byte) :
  wf_keys self ->
  exists padded ct,
    pad M = Ok padded /\ encrypt self M = Ok ct
    /\ length ct = length padded /\ (length padded mod 8 = 0)%nat
    /\ decrypt self ct = unpad padded.
Proof.
  intros Hwf.
  assert (exists padded, pad M = Ok padded /\ (length padded mod 8 = 0)%nat)
    as (padded & Hpad & Hal).
  { destruct (decide (length M mod 8 = 0)%nat) as [H0|Hne].
    - exists M. by rewrite pad_aligned.
    - destruct (pad_unaligned M Hne) as (p & b & Hp & Hpe & _ & ->).
      eexists. split; [done|]. rewrite length_app, length_replicate.
      pose proof (Nat.div_mod_eq (length M) 8).
      replace (length M + p)%nat with ((1 + length M / 8) * 8)%nat by lia.
      apply Nat.Div0.mod_mul. }
  destruct (aligned_blocks padded Hal) as [n Hn].
  destruct (block_loop_roundtrip self padded n Hwf Hn) as (ct & Hct & Hlen & Hback).
  exists padded, ct. unfold encrypt. rewrite Hpad, Ok_bind.
  split_and!; [done|done|lia|done|].
  rewrite decrypt_aligned, Hback; [done|].
  rewrite Hlen, Nat.mul_comm. apply Nat.Div0.mod_mul.
Qed.

(** ** The strip step against the specified rule *)

Lemma int_of_byte_0 (b : byte) : int_of_byte b = 0 -> b = x00.
Proof. destruct b; vm_compute; congruence. Qed.

Lemma int_of_byte_nonneg (b : byte) : 0 <= int_of_byte b.
Proof. unfold int_of_byte. lia. Qed.

Lemma bound_minus (n : nat) (P : Z) :
  0 < P -> bound n (- P) = (n - Z.to_nat P)%nat.
Proof.
  intros HP. unfold bound.
  destruct (Z.ltb_spec (- P) 0); lia.
Qed.

Lemma all_zero_forallb (buf : list byte) :
  forallb (fun b => int_of_byte b =? 0) buf = true <-> Forall (fun b => b = x00) buf.
Proof.
  rewrite forallb_forall, Forall_forall. split; intros H b Hb.
  - apply int_of_byte_0. specialize (H b Hb). lia.
  - by rewrite (H b Hb).
Qed.

Lemma Exists_nonzero (buf : list byte) :
  Exists (fun b => b <> x00) buf -> ~ Forall (fun b => b = x00) buf.
Proof.
  induction 1 as [b l Hb|b l _ IH]; intros HF; inversion_clear HF.
  - by apply Hb.
  - by apply IH.
Qed.

(** Outside the all-zero buffers, the strip step of [decrypt] is the
    specified rule. *)
Lemma unpad_spec_strip (buf : list byte) :
  ~ Forall (fun b => b = x00) buf -> unpad buf = Ok (spec_strip buf).
Proof.
  intros Hnz. unfold unpad, spec_strip.
  destruct (list.last buf) as [p|] eqn:Hlast.
  2:{ apply last_None in Hlast. subst buf. by destruct Hnz. }
  rewrite (getitem_minus_1 _ p Hlast), Ok_bind. unfold strip_cond.
  pose proof (int_of_byte_nonneg p) as Hp.
  destruct (decide (int_of_byte p = 0)) as [H0|Hpos].
  - rewrite H0. change (Z.to_nat 0) with 0%nat. change (- 0) with 0.
    unfold slice_from.
    replace (bound (length buf) 0) with 0%nat by (unfold bound; simpl; lia).
    rewrite drop_0.
    rewrite Nat.sub_0_r, drop_all, firstn_all.
    destruct (forallb _ buf) eqn:Hall; [|done].
    apply all_zero_forallb in Hall. done.
  - unfold slice_from, slice_to. rewrite !bound_minus by lia.
    replace (Z.to_nat (int_of_byte p) <? 8)%nat with (int_of_byte p <? 8).
    + by destruct (_ && _).
    + destruct (Z.ltb_spec (int_of_byte p) 8), (Nat.ltb_spec (Z.to_nat (int_of_byte p)) 8);
        (done || lia).
Qed.

Lemma decrypt_block_reversed (self : DES.t) (C : list Z) :
  length (subkeys self) = 16%nat ->
  decrypt_block self C
  = encrypt_block (DES.mk (key self) (reverse (subkeys self))) C.
Proof.
  intros Hn. unfold decrypt_block, encrypt_block.
  destruct (_initial_permutation C) as [block|e]; [|done].
  rewrite !Ok_bind, rounds_backward, rounds_forward; [done| |done].
  simpl. by rewrite length_reverse.
Qed.

Lemma decrypt_accepts (self : DES.t) (ct : list byte) :
  wf_keys self -> ct <> [] -> (length ct mod 8 = 0)%nat ->
  exists buf, block_loop (decrypt_block self) ct = Ok buf
              /\ length buf = length ct
              /\ exists pt, decrypt self ct = Ok pt.
Proof.
  intros Hwf Hne Hal. destruct (aligned_blocks ct Hal) as [n Hn].
  destruct (block_loop_Ok (decrypt_block self) ct n) as (buf & Hbuf & Hlen);
    [intros B HB; by apply decrypt_block_Ok|done|].
  exists buf. split_and!; [done|lia|].
  rewrite decrypt_aligned, Hbuf, Ok_bind by done. unfold unpad.
  destruct (list.last buf) as [p|] eqn:Hlast.
  - rewrite (getitem_minus_1 _ p Hlast), Ok_bind. destruct (strip_cond _ _); eauto.
  - apply last_None in Hlast. subst buf. destruct ct; [done|simpl in *; lia].
Qed.

(** With a well-formed instance, [ValueError] is raised exactly on
    lengths that are not a multiple of 8. *)
Lemma decrypt_ValueError_iff (self : DES.t) (ct : list byte) :
  wf_keys self ->
  decrypt self ct = Raise ValueError <-> (length ct mod 8 <> 0)%nat.
Proof.
  intros Hwf. split; [|apply decrypt_unaligned].
  intros Herr Hal. destruct ct as [|b ct]; [discriminate Herr|].
  destruct (decrypt_accepts self (b :: ct) Hwf) as (_ & _ & _ & pt & Hpt);
    [done..|].
  congruence.
Qed.

(** * Properties of the specification *)

(** ** C1: message round trip *)

(** C1, as stated, fails: an eight-byte message is encrypted without
    padding, and when its last byte is 1 [decrypt] takes that byte for
    padding and returns seven bytes. *)
Lemma roundtrip_loses_tail_byte :
  (self ← DES.new key_fips; c ← encrypt self msg_tail1; decrypt self c)
  <> Ok msg_tail1.
Proof. vm_compute. discriminate. Qed.

(** C1 (amended): for every eight-byte key [K], decrypting the
    encryption of [M] returns [M] whenever the length of [M] is not a
    multiple of 8, and also whenever [M] is a non-empty whole number of
    blocks on which the strip condition of [decrypt] does not hold for
    its last byte value. *)
Theorem roundtrip_encrypt_decrypt (K M : list byte) :
  length K = 8%nat ->
  (length M mod 8 <> 0)%nat
  \/ (exists p, list.last M = Some p /\ strip_cond M (int_of_byte p) = false) ->
  (self ← DES.new K; c ← encrypt self M; decrypt self c) = Ok M.
Proof.
  intros HK HM. destruct (new_Ok K HK) as (self & -> & Hwf). rewrite Ok_bind.
  destruct (encrypt_then_decrypt self M Hwf)
    as (padded & ct & Hpad & -> & _ & _ & Hdec).
  rewrite Ok_bind, Hdec. destruct HM as [Hne|(p & Hlast & Hcond)].
  - destruct (pad_unaligned M Hne) as (n & b & Hn & _ & Hb & Hpad').
    rewrite Hpad' in Hpad. injection Hpad as <-. by apply unpad_padded.
  - destruct (decide (length M mod 8 = 0)%nat) as [Hal|Hne].
    + rewrite pad_aligned in Hpad by done. injection Hpad as <-.
      by apply unpad_kept with (p := p).
    + destruct (pad_unaligned M Hne) as (n & b & Hn & _ & Hb & Hpad').
      rewrite Hpad' in Hpad. injection Hpad as <-. by apply unpad_padded.
Qed.

Lemma roundtrip_encrypt_decrypt_witness :
  length key_fips = 8%nat
  /\ (exists p, list.last pt_fips = Some p
                /\ strip_cond pt_fips (int_of_byte p) = false)
  /\ (self ← DES.new key_fips; c ← encrypt self pt_fips; decrypt self c)
     = Ok pt_fips.
Proof.
  assert (exists p, list.last pt_fips = Some p
                    /\ strip_cond pt_fips (int_of_byte p) = false) as H.
  { exists xef. split; reflexivity. }
  split; [reflexivity|]. split; [exact H|].
  apply (roundtrip_encrypt_decrypt key_fips pt_fips); [reflexivity|].
  right. exact H.
Defined.

(** ** C2: known-answer vector *)

(** C2: with the key bytes 0x133457799BBCDFF1, [encrypt_block] takes the
    64-bit block 0x0123456789ABCDEF to the 64-bit block
    0x85E813540F0AB405. *)
Theorem encrypt_block_known_answer :
  exists self,
    DES.new key_fips = Ok self
    /\ int_of_bits (key self) = 0x133457799BBCDFF1
    /\ int_of_bits (_bytes_to_bit_array pt_fips) = 0x0123456789ABCDEF
    /\ encrypt_block self (_bytes_to_bit_array pt_fips)
       = Ok (_bytes_to_bit_array ct_fips)
    /\ length (_bytes_to_bit_array ct_fips) = 64%nat
    /\ int_of_bits (_bytes_to_bit_array ct_fips) = 0x85E813540F0AB405.
Proof. exists self_fips. split_and!; vm_compute; reflexivity. Qed.

(** ** C3: block round trip *)

(** C3: for every eight-byte key and every 64-bit block [B],
    [encrypt_block] succeeds and [decrypt_block] takes its result back
    to [B]; and [decrypt_block] is [encrypt_block] run with the sixteen
    subkeys in reverse order, subkey 16 first. *)
Theorem decrypt_block_encrypt_block (K : list byte) (B : list Z) :
  length K = 8%nat -> bits 64 B ->
  exists self,
    DES.new K = Ok self
    /\ (c ← encrypt_block self B; decrypt_block self c) = Ok B
    /\ head (reverse (subkeys self)) = subkeys self !! 15%nat
    /\ (forall C, decrypt_block self C
                  = encrypt_block (DES.mk (key self) (reverse (subkeys self))) C).
Proof.
  intros HK HB. destruct (new_Ok K HK) as (self & Hnew & Hwf).
  exists self. split_and!; [done| | |].
  - destruct (block_roundtrip self B Hwf HB) as (C & -> & _ & HD).
    by rewrite Ok_bind.
  - destruct Hwf as [Hn _]. destruct self as [k ks]. simpl in *.
    explode ks Hn. reflexivity.
  - intros C. apply decrypt_block_reversed, Hwf.
Qed.

Lemma decrypt_block_encrypt_block_witness :
  length key_fips = 8%nat
  /\ bits 64 (_bytes_to_bit_array pt_fips)
  /\ exists self,
       DES.new key_fips = Ok self
       /\ (c ← encrypt_block self (_bytes_to_bit_array pt_fips);
           decrypt_block self c) = Ok (_bytes_to_bit_array pt_fips)
       /\ head (reverse (subkeys self)) = subkeys self !! 15%nat
       /\ (forall C, decrypt_block self C
                     = encrypt_block
                         (DES.mk (key self) (reverse (subkeys self))) C).
Proof.
  split; [reflexivity|]. split; [exact (bytes_to_bit_array_bits pt_fips)|].
  apply (decrypt_block_encrypt_block key_fips (_bytes_to_bit_array pt_fips)).
  - reflexivity.
  - exact (bytes_to_bit_array_bits pt_fips).
Defined.

(** ** C4: output length of [encrypt] *)

(** C4, as stated, fails: [encrypt] of the empty byte string is the empty
    byte string, not eight bytes. *)
Lemma encrypt_empty_is_empty :
  ~ exists c, (self ← DES.new key_fips; encrypt self []) = Ok c
              /\ length c = 8%nat.
Proof. intros (c & Hc & Hlen). vm_compute in Hc. by injection Hc as <-. Qed.

(** C4 (amended): [encrypt] always succeeds; a plaintext whose length is
    a multiple of 8 (including 0) gets no padding and is encrypted to an
    output of the same length, and any other plaintext is padded with
    [n = 8 - len mod 8] bytes of value [n], so its output length is the
    input length rounded up to the next multiple of 8. *)
Theorem encrypt_length (K M : list byte) :
  length K = 8%nat ->
  exists (n : nat) (b : byte) (c : list byte),
    n = (if (length M mod 8 =? 0)%nat then 0 else 8 - length M mod 8)%nat
    /\ Forall (fun x => int_of_byte x = Z.of_nat n) (replicate n b)
    /\ pad M = Ok (M ++ replicate n b)
    /\ (self ← DES.new K; encrypt self M) = Ok c
    /\ length c = (length M + n)%nat.
Proof.
  intros HK. destruct (new_Ok K HK) as (self & -> & Hwf). rewrite Ok_bind.
  destruct (encrypt_then_decrypt self M Hwf)
    as (padded & ct & Hpad & -> & Hlen & _ & _).
  destruct (Nat.eqb_spec (length M mod 8) 0) as [Hal|Hne].
  - rewrite pad_aligned in Hpad by done. injection Hpad as <-.
    exists 0%nat, x00, ct. simpl. rewrite app_nil_r.
    split_and!; [done|done|by apply pad_aligned|done|lia].
  - destruct (pad_unaligned M Hne) as (n & b & _ & -> & Hb & Hpad').
    rewrite Hpad' in Hpad. injection Hpad as <-.
    eexists _, b, ct. split_and!; [done|by apply Forall_replicate|done|done|].
    by rewrite Hlen, length_app, length_replicate.
Qed.

Lemma encrypt_length_witness :
  length key_fips = 8%nat
  /\ exists (n : nat) (b : byte) (c : list byte),
       n = (if (length pt_fips mod 8 =? 0)%nat
            then 0 else 8 - length pt_fips mod 8)%nat
       /\ Forall (fun x => int_of_byte x = Z.of_nat n) (replicate n b)
       /\ pad pt_fips = Ok (pt_fips ++ replicate n b)
       /\ (self ← DES.new key_fips; encrypt self pt_fips) = Ok c
       /\ length c = (length pt_fips + n)%nat.
Proof.
  split; [reflexivity|].
  apply (encrypt_length key_fips pt_fips). reflexivity.
Defined.

(** ** C5: errors of [decrypt] *)

(** C5 at the empty buffer: [decrypt] passes the length check, decrypts
    no block and then reads [plaintext[-1]], which raises [IndexError]
    rather than the invalid-input [ValueError]. *)
Theorem decrypt_empty_IndexError (self : DES.t) :
  decrypt self [] = Raise IndexError.
Proof. reflexivity. Qed.

(** ** C6: the strip rule *)

(** C6 at a block that decrypts to eight zero bytes: the specified rule
    drops the final 0 bytes and keeps the buffer, while [decrypt] returns
    the empty byte string. *)
Theorem decrypt_all_zero_block :
  DES.new key_fips = Ok self_fips
  /\ block_loop (decrypt_block self_fips) ct_zero = Ok (replicate 8 x00)
  /\ spec_strip (replicate 8 x00) = replicate 8 x00
  /\ decrypt self_fips ct_zero = Ok [].
Proof. split_and!; vm_compute; reflexivity. Qed.

(** ** C7: the key schedule *)

(** C7: for every eight-byte key and every round [i] from 1 to 16,
    subkey [i] is PC2 of the concatenation of the two 28-bit halves of
    the PC1 output, each left-circular-shifted by the accumulated
    per-round amounts: one position in rounds 1, 2, 9 and 16, two
    positions otherwise.  Both permutations are pinned against the
    tables themselves: entry [j] of the PC1 output is bit [PC1[j]]
    (counted from 1) of the key bits, and entry [j] of subkey [i] is bit
    [PC2[j]] of the concatenated shifted halves. *)
Theorem generate_subkeys_shift_schedule (K : list byte) (i : nat) :
  length K = 8%nat -> (1 <= i <= 16)%nat ->
  exists self key_56 sk,
    DES.new K = Ok self
    /\ _permuted_choice_1 (key self) = Ok key_56
    /\ subkeys self !! (i - 1)%nat = Some sk
    /\ _permuted_choice_2
         (spec_half (slice_to key_56 28) i ++ spec_half (slice_from key_56 28) i)
       = Ok sk
    /\ key_56 = sel (_bytes_to_bit_array K) <$> PC1
    /\ sk = sel (spec_half (take 28 key_56) i ++ spec_half (drop 28 key_56) i)
            <$> PC2.
Proof.
  intros HK Hi.
  destruct (new_spec K HK) as (self & key_56 & Hnew & Hkey & H56 & _ & Hsks).
  destruct (Hsks (i - 1)%nat) as (sk & Hsk & _ & Hp); [lia|].
  replace (Datatypes.S (i - 1)) with i in Hp by lia.
  exists self, key_56, sk. split_and!; [done..| |].
  - pose proof (bytes_to_bit_array_bits K) as Hkb. rewrite HK in Hkb.
    rewrite Hkey in H56. unfold _permuted_choice_1 in H56.
    destruct (permute_bits_Ok _ _ PC1 Hkb eq_refl) as [Hperm _].
    rewrite Hperm in H56. congruence.
  - assert (bits 56 key_56) as Hb56.
    { pose proof (bytes_to_bit_array_bits K) as Hkb. rewrite HK in Hkb.
      rewrite Hkey in H56. unfold _permuted_choice_1 in H56.
      destruct (permute_bits_Ok _ _ PC1 Hkb eq_refl) as [Hperm Hb].
      rewrite Hperm in H56. by replace key_56 with
        (sel (_bytes_to_bit_array K) <$> PC1) by congruence. }
    assert (slice_to key_56 28 = take 28 key_56
            /\ slice_from key_56 28 = drop 28 key_56) as [Ht Hd].
    { change 28 with (Z.of_nat 28).
      by rewrite slice_to_nat, slice_from_nat by (rewrite (proj1 Hb56); lia). }
    rewrite Ht, Hd in Hp.
    assert (bits (28 + 28)
              (spec_half (take 28 key_56) i ++ spec_half (drop 28 key_56) i))
      as Hcd.
    { apply bits_app; apply spec_half_bits;
        [apply (bits_take 56); [lia|done]|by apply (bits_drop 56 28)]. }
    unfold _permuted_choice_2 in Hp.
    destruct (permute_bits_Ok _ _ PC2 Hcd eq_refl) as [Hperm _].
    rewrite Hperm in Hp. congruence.
Qed.

Lemma generate_subkeys_shift_schedule_witness :
  length key_fips = 8%nat
  /\ (1 <= 9 <= 16)%nat
  /\ exists self key_56 sk,
       DES.new key_fips = Ok self
       /\ _permuted_choice_1 (key self) = Ok key_56
       /\ subkeys self !! (9 - 1)%nat = Some sk
       /\ _permuted_choice_2
            (spec_half (slice_to key_56 28) 9
             ++ spec_half (slice_from key_56 28) 9)
          = Ok sk
       /\ key_56 = sel (_bytes_to_bit_array key_fips) <$> PC1
       /\ sk = sel (spec_half (take 28 key_56) 9
                    ++ spec_half (drop 28 key_56) 9) <$> PC2.
Proof.
  split; [reflexivity|]. split; [lia|].
  apply (generate_subkeys_shift_schedule key_fips 9); [reflexivity|lia].
Defined.

(** ** C8: number and width of the subkeys *)

(** C8: for every eight-byte key the schedule has exactly 16 subkeys and
    each is a bit array of exactly 48 bits. *)
Theorem subkeys_count_and_width (K : list byte) :
  length K = 8%nat ->
  exists self,
    DES.new K = Ok self
    /\ length (subkeys self) = 16%nat
    /\ Forall (fun sk => length sk = 48%nat /\ Forall is_bit sk) (subkeys self).
Proof.
  intros HK. destruct (new_Ok K HK) as (self & Hnew & Hn & Hks). by exists self.
Qed.

Lemma subkeys_count_and_width_witness :
  length key_fips = 8%nat
  /\ exists self,
       DES.new key_fips = Ok self
       /\ length (subkeys self) = 16%nat
       /\ Forall (fun sk => length sk = 48%nat /\ Forall is_bit sk)
                 (subkeys self).
Proof.
  split; [reflexivity|].
  apply (subkeys_count_and_width key_fips). reflexivity.
Defined.

(** ** C9: IP and IP_INV *)

(** C9: on every sequence of 64 entries, permuting by IP and then by
    IP_INV gives the sequence back. *)
Theorem permute_IP_IP_INV (B : list Z) :
  length B = 64%nat ->
  (b ← _permute B IP; _permute b IP_INV) = Ok B.
Proof.
  intros HB. rewrite permute_Ok by (unfold len; by rewrite HB).
  rewrite Ok_bind, permute_Ok by (unfold len; by rewrite length_fmap).
  f_equal. by apply IP_then_IP_INV.
Qed.

Lemma permute_IP_IP_INV_witness :
  length (_bytes_to_bit_array pt_fips) = 64%nat
  /\ (b ← _permute (_bytes_to_bit_array pt_fips) IP; _permute b IP_INV)
     = Ok (_bytes_to_bit_array pt_fips).
Proof.
  split; [reflexivity|].
  apply (permute_IP_IP_INV (_bytes_to_bit_array pt_fips)). reflexivity.
Defined.

(** ** C10: a decrypted buffer that ends in a zero byte *)

(** C10: for a non-empty ciphertext of whole blocks whose blockwise
    decryption is [buf], [decrypt] returns the empty byte string when
    every byte of [buf] is zero, and returns [buf] unchanged when its
    last byte is zero but some byte of it is not. *)
Theorem decrypt_zero_last_byte (K : list byte) (self : DES.t)
    (ct buf : list byte) :
  DES.new K = Ok self ->
  ct <> [] -> (length ct mod 8 = 0)%nat ->
  block_loop (decrypt_block self) ct = Ok buf ->
  Forall (fun b => b = x00) buf \/ list.last buf = Some x00 ->
  decrypt self ct = Ok (if forallb (Byte.eqb x00) buf then [] else buf).
Proof.
  intros Hnew Hne Hal Hbuf Hcase.
  assert (list.last buf = Some x00) as Hlast.
  { destruct Hcase as [Hzero|Hlast]; [|done].
    assert (wf_keys self) as Hwf.
    { assert (length K = 8%nat) as HK.
      { unfold DES.new, len in Hnew.
        destruct (Z.eqb_spec (Z.of_nat (length K)) 8); [lia|done]. }
      destruct (new_Ok K HK) as (self' & Hnew' & Hwf). congruence. }
    destruct (decrypt_accepts self ct Hwf Hne Hal) as (buf' & Hbuf' & Hlen & _).
    assert (buf' = buf) as -> by congruence.
    destruct (list.last buf) as [p|] eqn:Hl.
    - f_equal. apply last_Some_elem_of in Hl.
      by apply (proj1 (Forall_forall _ _) Hzero), list_elem_of_In.
    - apply last_None in Hl. subst buf. destruct ct; [done|discriminate]. }
  rewrite decrypt_aligned, Hbuf, Ok_bind by done.
  destruct (forallb (Byte.eqb x00) buf) eqn:Hall.
  - assert (Forall (fun b => b = x00) buf) as Hzero.
    { apply Forall_forall. intros b Hb.
      rewrite forallb_forall in Hall. symmetry. by apply Byte.byte_dec_bl, Hall. }
    unfold unpad. rewrite (getitem_minus_1 _ _ Hlast), Ok_bind.
    unfold strip_cond, slice_from, slice_to.
    change (int_of_byte x00) with 0. change (- 0) with 0.
    replace (bound (length buf) 0) with 0%nat by (unfold bound; simpl; lia).
    rewrite drop_0, (proj2 (all_zero_forallb buf) Hzero). done.
  - rewrite unpad_spec_strip.
    + unfold spec_strip. rewrite Hlast. simpl.
      by rewrite Nat.sub_0_r, drop_all, firstn_all.
    + intros Hzero. apply not_true_iff_false in Hall. apply Hall.
      apply forallb_forall. intros b Hb.
      rewrite (proj1 (Forall_forall _ _) Hzero b Hb). reflexivity.
Qed.

Lemma decrypt_zero_last_byte_witness :
  DES.new key_fips = Ok self_fips
  /\ ct_zero <> []
  /\ (length ct_zero mod 8 = 0)%nat
  /\ block_loop (decrypt_block self_fips) ct_zero = Ok (replicate 8 x00)
  /\ (Forall (fun b => b = x00) (replicate 8 x00)
      \/ list.last (replicate 8 x00) = Some x00)
  /\ decrypt self_fips ct_zero
     = Ok (if forallb (Byte.eqb x00) (replicate 8 x00)
           then [] else replicate 8 x00).
Proof.
  assert (DES.new key_fips = Ok self_fips) as Hnew by (vm_compute; reflexivity).
  assert (ct_zero <> []) as Hne by discriminate.
  assert (length ct_zero mod 8 = 0)%nat as Hal by reflexivity.
  assert (block_loop (decrypt_block self_fips) ct_zero = Ok (replicate 8 x00))
    as Hbuf by (vm_compute; reflexivity).
  assert (Forall (fun b => b = x00) (replicate 8 x00)
          \/ list.last (replicate 8 x00) = Some x00) as Hcase
    by (right; reflexivity).
  split; [exact Hnew|]. split; [exact Hne|]. split; [exact Hal|].
  split; [exact Hbuf|]. split; [exact Hcase|].
  exact (decrypt_zero_last_byte key_fips self_fips ct_zero (replicate 8 x00)
           Hnew Hne Hal Hbuf Hcase).
Defined.

(** * Further properties of [des.py] *)

(** ** Helper lemmas *)

Lemma mapM_raise {A B : Type} (f : A -> result B) (l1 l2 : list A) (x : A)
    (e : exn) :
  (forall y, y ∈ l1 -> exists z, f y = Ok z) -> f x = Raise e ->
  mapM f (l1 ++ x :: l2) = Raise e.
Proof.
  induction l1 as [|y l1 IH]; intros Hok Hx; simpl.
  - by rewrite Hx.
  - destruct (Hok y) as [z ->]; [by left|]. simpl.
    rewrite IH; [done| |done]. intros y' Hy'. apply Hok. by right.
Qed.

Lemma range_split (n m : nat) :
  (m < n)%nat ->
  range (Z.of_nat n)
  = (Z.of_nat <$> seq 0 m) ++ Z.of_nat m :: (Z.of_nat <$> seq (S m) (n - S m)).
Proof.
  intros Hm. rewrite range_nat.
  replace n with (m + S (n - S m))%nat at 1 by lia.
  by rewrite seq_app, fmap_app.
Qed.

Lemma getitem_out_of_range {A : Type} (l : list A) (i : Z) :
  len l <= i -> getitem l i = Raise IndexError.
Proof.
  intros Hi. unfold len in Hi. unfold getitem.
  destruct (Z.ltb_spec i 0); [lia|]. destruct (Z.ltb_spec i 0); [lia|].
  by rewrite lookup_ge_None_2 by lia.
Qed.

Lemma wf_keys_reverse (self : DES.t) :
  wf_keys self -> wf_keys (DES.mk (key self) (reverse (subkeys self))).
Proof.
  intros [Hn Hks]. split; simpl.
  - by rewrite length_reverse.
  - by apply Forall_reverse.
Qed.

Lemma bits_replicate (n : nat) (b : Z) : is_bit b -> bits n (replicate n b).
Proof.
  intros Hb. split; [apply length_replicate|by apply Forall_replicate].
Qed.

(** ** The constructor *)

(** X1: [DES(key)] raises [ValueError] exactly when the key is not eight
    bytes long, and succeeds on every eight-byte key. *)
Theorem new_key_length (K : list byte) :
  (DES.new K = Raise ValueError <-> length K <> 8%nat)
  /\ ((exists self, DES.new K = Ok self) <-> length K = 8%nat).
Proof.
  destruct (decide (length K = 8%nat)) as [HK|HK].
  - destruct (new_Ok K HK) as (self & Hnew & _). split; split; try done.
    + rewrite Hnew. discriminate.
    + eauto.
  - assert (DES.new K = Raise ValueError) as Hnew.
    { unfold DES.new, len. destruct (Z.eqb_spec (Z.of_nat (length K)) 8); [lia|done]. }
    split; split; try done. rewrite Hnew. by intros [self ?].
Qed.

(** ** Bytes and bit arrays *)

(** X2: converting bytes to a bit array and back returns the bytes. *)
Theorem bit_array_to_bytes_roundtrip (data : list byte) :
  _bit_array_to_bytes (_bytes_to_bit_array data) = Ok data.
Proof. apply bit_array_to_bytes_of_bytes. Qed.

Lemma foldl_byte_bits (a : Z) (b : byte) :
  foldl (fun a x => 2 * a + x) a (byte_bits b) = 256 * a + int_of_byte b.
Proof.
  assert (foldl (fun a x => 2 * a + x) 0 (byte_bits b) = int_of_byte b) as <-
    by (destruct b; reflexivity).
  pose proof (proj1 (byte_bits_bits b)) as Hl.
  destruct (byte_bits b) as [|x7 [|x6 [|x5 [|x4 [|x3 [|x2 [|x1 [|x0 [|? ?]]]]]]]]];
    try discriminate Hl.
  simpl. lia.
Qed.

(** X3: the bit array of a byte string has eight entries per byte, each
    0 or 1, and read as a binary number, first bit most significant, it
    is the big-endian value of the bytes. *)
Theorem bytes_to_bit_array_big_endian (data : list byte) :
  length (_bytes_to_bit_array data) = (8 * length data)%nat
  /\ Forall is_bit (_bytes_to_bit_array data)
  /\ int_of_bits (_bytes_to_bit_array data) = Net.from_bytes data.
Proof.
  destruct (bytes_to_bit_array_bits data) as [Hl Hb]. split_and!; [done..|].
  unfold int_of_bits, Net.from_bytes. generalize 0.
  induction data as [|b data IH]; intros a; [done|].
  rewrite bytes_to_bit_array_cons, foldl_app, foldl_byte_bits. simpl.
  apply IH.
  - by destruct (bytes_to_bit_array_bits data).
  - by destruct (bytes_to_bit_array_bits data).
Qed.

(** X4: a bit array of [8 * n] entries, each 0 or 1, converts to [n]
    bytes whose bit array is the original. *)
Theorem bytes_of_bit_array_roundtrip (n : nat) (l : list Z) :
  bits (8 * n) l ->
  exists bs, _bit_array_to_bytes l = Ok bs /\ length bs = n
             /\ _bytes_to_bit_array bs = l.
Proof.
  intros Hl. destruct (bits_are_bytes n l Hl) as (bs & Hn & <-).
  exists bs. by rewrite bit_array_to_bytes_of_bytes.
Qed.

Lemma bytes_of_bit_array_roundtrip_witness :
  bits (8 * 2) (replicate 16 1)
  /\ exists bs, _bit_array_to_bytes (replicate 16 1) = Ok bs /\ length bs = 2%nat
                /\ _bytes_to_bit_array bs = replicate 16 1.
Proof.
  assert (bits (8 * 2) (replicate 16 1)) as H
    by (apply (bits_replicate 16); by right).
  split; [exact H|]. exact (bytes_of_bit_array_roundtrip 2 (replicate 16 1) H).
Defined.

(** ** Permutations and XOR *)

(** X5: on every sequence of 64 entries, permuting by IP_INV and then by
    IP gives the sequence back. *)
Theorem permute_IP_INV_IP (B : list Z) :
  length B = 64%nat ->
  (b ← _permute B IP_INV; _permute b IP) = Ok B.
Proof.
  intros HB. rewrite permute_Ok by (unfold len; by rewrite HB).
  rewrite Ok_bind, permute_Ok by (unfold len; by rewrite length_fmap).
  f_equal. by apply IP_INV_then_IP.
Qed.

Lemma permute_IP_INV_IP_witness :
  length (_bytes_to_bit_array ct_fips) = 64%nat
  /\ (b ← _permute (_bytes_to_bit_array ct_fips) IP_INV; _permute b IP)
     = Ok (_bytes_to_bit_array ct_fips).
Proof.
  split; [reflexivity|].
  apply (permute_IP_INV_IP (_bytes_to_bit_array ct_fips)). reflexivity.
Defined.

(** X6: [_xor(a, b)] raises [IndexError] when [b] is shorter than [a]. *)
Theorem xor_short_operand (a b : list Z) :
  (length b < length a)%nat -> _xor a b = Raise IndexError.
Proof.
  intros Hlen. unfold _xor, len.
  rewrite (range_split (length a) (length b) Hlen).
  apply mapM_raise.
  - intros i Hi. apply list_elem_of_fmap in Hi as (k & -> & Hk).
    apply list_elem_of_lookup in Hk as (j & Hj).
    apply lookup_seq in Hj as [-> Hk]. simpl.
    destruct (lookup_lt_is_Some_2 a j) as [x Hx]; [lia|].
    destruct (lookup_lt_is_Some_2 b j) as [y Hy]; [lia|].
    rewrite (getitem_nat _ _ _ Hx), (getitem_nat _ _ _ Hy). by eexists.
  - destruct (lookup_lt_is_Some_2 a (length b) Hlen) as [x Hx].
    rewrite (getitem_nat _ _ _ Hx), Ok_bind.
    by rewrite getitem_out_of_range.
Qed.

Lemma xor_short_operand_witness :
  (length [1] < length [0; 1])%nat /\ _xor [0; 1] [1] = Raise IndexError.
Proof.
  split; [simpl; lia|]. apply (xor_short_operand [0; 1] [1]). simpl. lia.
Defined.

(** X7: when [b] is at least as long as [a], [_xor(a, b)] has the length
    of [a] (the rest of [b] is ignored) and XOR-ing the result with [b]
    again gives [a] back. *)
Theorem xor_involution (a b : list Z) :
  (length a <= length b)%nat ->
  exists c, _xor a b = Ok c /\ length c = length a /\ _xor c b = Ok a.
Proof.
  intros Hlen. exists (zip_with Z.lxor a b).
  assert (length (zip_with Z.lxor a b) = length a) as Hc
    by (rewrite length_zip_with; lia).
  split_and!; [by apply xor_Ok|done|].
  rewrite xor_Ok by lia. f_equal. by apply xor_cancel.
Qed.

Lemma xor_involution_witness :
  (length [1; 0] <= length [1; 1; 0])%nat
  /\ exists c, _xor [1; 0] [1; 1; 0] = Ok c /\ length c = length [1; 0]
               /\ _xor c [1; 1; 0] = Ok [1; 0].
Proof.
  split; [simpl; lia|]. apply (xor_involution [1; 0] [1; 1; 0]). simpl. lia.
Defined.

(** ** Rounds and blocks *)

(** X8: on 32-bit halves and a 48-bit subkey, [_des_round] returns the
    old right half as the new left half and a 32-bit new right half, and
    running the round again on the new right half with the same right
    half and subkey gives the old left half back. *)
Theorem des_round_structure (l r k : list Z) :
  bits 32 l -> bits 32 r -> bits 48 k ->
  exists new_right,
    _des_round l r k = Ok (r, new_right) /\ bits 32 new_right
    /\ _des_round new_right r k = Ok (r, l).
Proof.
  intros Hl Hr Hk. destruct (des_round_Ok l r k Hl Hr Hk) as (f & Hf & Hfb & Hround).
  exists (zip_with Z.lxor l f).
  assert (bits 32 (zip_with Z.lxor l f)) as Hnr by (by apply xor_bits).
  split_and!; [done..|].
  destruct (des_round_Ok (zip_with Z.lxor l f) r k Hnr Hr Hk)
    as (f' & Hf' & _ & ->).
  rewrite Hf in Hf'. injection Hf' as <-.
  by rewrite xor_cancel by (rewrite (proj1 Hl), (proj1 Hfb); done).
Qed.

Lemma des_round_structure_witness :
  bits 32 (replicate 32 0) /\ bits 32 (replicate 32 1) /\ bits 48 (replicate 48 1)
  /\ exists new_right,
       _des_round (replicate 32 0) (replicate 32 1) (replicate 48 1)
       = Ok (replicate 32 1, new_right)
       /\ bits 32 new_right
       /\ _des_round new_right (replicate 32 1) (replicate 48 1)
          = Ok (replicate 32 1, replicate 32 0).
Proof.
  assert (bits 32 (replicate 32 0)) as H0 by (apply bits_replicate; by left).
  assert (bits 32 (replicate 32 1)) as H1 by (apply bits_replicate; by right).
  assert (bits 48 (replicate 48 1)) as H2 by (apply bits_replicate; by right).
  split; [exact H0|]. split; [exact H1|]. split; [exact H2|].
  exact (des_round_structure _ _ _ H0 H1 H2).
Defined.

(** X9: for every eight-byte key and every 64-bit block [C],
    [decrypt_block] succeeds and [encrypt_block] takes its result back
    to [C]. *)
Theorem encrypt_block_decrypt_block (K : list byte) (C : list Z) :
  length K = 8%nat -> bits 64 C ->
  exists self,
    DES.new K = Ok self
    /\ (b ← decrypt_block self C; encrypt_block self b) = Ok C.
Proof.
  intros HK HC. destruct (new_Ok K HK) as (self & Hnew & Hwf).
  exists self. split; [done|].
  pose proof (wf_keys_reverse self Hwf) as Hwf'.
  destruct (block_roundtrip _ C Hwf' HC) as (B & HB & _ & Hback).
  rewrite decrypt_block_reversed, HB, Ok_bind by apply Hwf.
  rewrite decrypt_block_reversed in Hback by apply Hwf'. simpl in Hback.
  rewrite reverse_involutive in Hback. by destruct self.
Qed.

Lemma encrypt_block_decrypt_block_witness :
  length key_fips = 8%nat
  /\ bits 64 (_bytes_to_bit_array ct_fips)
  /\ exists self,
       DES.new key_fips = Ok self
       /\ (b ← decrypt_block self (_bytes_to_bit_array ct_fips);
           encrypt_block self b) = Ok (_bytes_to_bit_array ct_fips).
Proof.
  split; [reflexivity|]. split; [exact (bytes_to_bit_array_bits ct_fips)|].
  apply (encrypt_block_decrypt_block key_fips (_bytes_to_bit_array ct_fips)).
  - reflexivity.
  - exact (bytes_to_bit_array_bits ct_fips).
Defined.

(** ** Index errors of [_permute] *)

Lemma getitem_Ok_or_IndexError {A : Type} (l : list A) (i : Z) :
  (exists x, getitem l i = Ok x) \/ getitem l i = Raise IndexError.
Proof.
  unfold getitem. destruct (_ <? 0); [by right|].
  destruct (l !! _); [left; by eexists|by right].
Qed.

Lemma mapM_raise_any {A B : Type} (f : A -> result B) (l : list A) (e : exn) :
  (forall x, x ∈ l -> (exists y, f x = Ok y) \/ f x = Raise e) ->
  (exists x, x ∈ l /\ f x = Raise e) ->
  mapM f l = Raise e.
Proof.
  induction l as [|x l IH]; intros Hall (x0 & Hin & Hx0).
  - by apply elem_of_nil in Hin.
  - simpl. destruct (Hall x) as [[y Hy]|Hx]; [by left| |by rewrite Hx].
    rewrite Hy. simpl. rewrite IH; [done| |].
    + intros z Hz. apply Hall. by right.
    + apply elem_of_cons in Hin as [->|Hin]; [congruence|eauto].
Qed.

Lemma getitem_wrap (block : list Z) (t : Z) :
  - len block < t <= len block ->
  getitem block (t - 1)
  = Ok (default 0 (block !! Z.to_nat ((t - 1) mod len block))).
Proof.
  intros Ht. unfold len in *. unfold getitem.
  assert (0 < Z.of_nat (length block)) as Hpos by lia.
  destruct (Z.ltb_spec (t - 1) 0) as [Hneg|Hnn].
  - destruct (Z.ltb_spec (t - 1 + Z.of_nat (length block)) 0); [lia|].
    replace ((t - 1) mod Z.of_nat (length block))
      with (t - 1 + Z.of_nat (length block)).
    2:{ apply Z.mod_unique with (q := -1); lia. }
    destruct (lookup_lt_is_Some_2 block (Z.to_nat (t - 1 + Z.of_nat (length block))))
      as [x ->]; [lia|done].
  - destruct (Z.ltb_spec (t - 1) 0); [lia|].
    rewrite Z.mod_small by lia.
    destruct (lookup_lt_is_Some_2 block (Z.to_nat (t - 1))) as [x ->]; [lia|done].
Qed.

Lemma permute_raise (block table : list Z) :
  Exists (fun t => t <= - len block \/ len block < t) table ->
  _permute block table = Raise IndexError.
Proof.
  intros Hex. unfold _permute. unfold len at 1. apply mapM_raise_any.
  - intros i Hi. rewrite range_nat in Hi.
    apply list_elem_of_fmap in Hi as (k & -> & Hk).
    apply list_elem_of_lookup in Hk as (j & Hj).
    apply lookup_seq in Hj as [-> Hk]. simpl.
    destruct (lookup_lt_is_Some_2 table j Hk) as [t Ht].
    rewrite (getitem_nat _ _ _ Ht), Ok_bind.
    apply getitem_Ok_or_IndexError.
  - apply Exists_exists in Hex as (t & Hin & Ht).
    apply list_elem_of_In, list_elem_of_lookup in Hin as (j & Hj).
    exists (Z.of_nat j). split.
    + rewrite range_nat. apply list_elem_of_fmap. exists j. split; [done|].
      apply list_elem_of_lookup. exists j. apply lookup_seq. split; [done|].
      by eapply lookup_lt_Some.
    + rewrite (getitem_nat _ _ _ Hj), Ok_bind. unfold len in Ht.
      destruct Ht as [Ht|Ht]; [|apply getitem_out_of_range; unfold len; lia].
      unfold getitem. destruct (Z.ltb_spec (t - 1) 0); [|lia].
      by destruct (Z.ltb_spec (t - 1 + Z.of_nat (length block)) 0); [|lia].
Qed.

(** X10: when every table entry [t] lies in [-len(block) < t <=
    len(block)], [_permute] succeeds and its [i]-th output is
    [block[(table[i] - 1) mod len(block)]]: entries from 1 up read
    [block[t-1]], entries from 0 down wrap around to the end of the
    block. *)
Theorem permute_in_range (block table : list Z) :
  Forall (fun t => - len block < t <= len block) table ->
  _permute block table
  = Ok ((fun t => default 0 (block !! Z.to_nat ((t - 1) mod len block)))
          <$> table).
Proof.
  intros Hall. unfold _permute, len at 1.
  rewrite (mapM_range_Ok _
    (fun i => (fun t => default 0 (block !! Z.to_nat ((t - 1) mod len block)))
                (default 0 (table !! i)))).
  - by rewrite (fmap_seq_lookup 0
      (fun t => default 0 (block !! Z.to_nat ((t - 1) mod len block)))).
  - intros i Hi. destruct (lookup_lt_is_Some_2 table i Hi) as [t Ht].
    rewrite (getitem_nat _ _ _ Ht), Ht, Ok_bind. simpl.
    apply getitem_wrap. exact (Forall_lookup_1 _ _ _ _ Hall Ht).
Qed.

Lemma permute_in_range_witness :
  Forall (fun t => - len [7; 8; 9] < t <= len [7; 8; 9]) [3; 0; 1; -2]
  /\ _permute [7; 8; 9] [3; 0; 1; -2]
     = Ok ((fun t => default 0 ([7; 8; 9] !! Z.to_nat ((t - 1) mod len [7; 8; 9])))
             <$> [3; 0; 1; -2]).
Proof.
  assert (Forall (fun t => - len [7; 8; 9] < t <= len [7; 8; 9]) [3; 0; 1; -2])
    as H by (repeat constructor; unfold len; simpl; lia).
  split; [exact H|]. exact (permute_in_range [7; 8; 9] [3; 0; 1; -2] H).
Defined.

(** X11: when some table entry is greater than [len(block)] (or at most
    [-len(block)]), [_permute] raises [IndexError]. *)
Theorem permute_out_of_range (block table : list Z) :
  Exists (fun t => t <= - len block \/ len block < t) table ->
  _permute block table = Raise IndexError.
Proof. apply permute_raise. Qed.

Lemma permute_out_of_range_witness :
  Exists (fun t => t <= - len [7; 8; 9] \/ len [7; 8; 9] < t) [1; 4]
  /\ _permute [7; 8; 9] [1; 4] = Raise IndexError.
Proof.
  assert (Exists (fun t => t <= - len [7; 8; 9] \/ len [7; 8; 9] < t) [1; 4])
    as H by (right; left; right; unfold len; simpl; lia).
  split; [exact H|]. exact (permute_out_of_range [7; 8; 9] [1; 4] H).
Defined.

(** ** Block width *)

(** X12: on a block of fewer than 64 entries, [encrypt_block] and
    [decrypt_block] raise [IndexError], whatever the instance. *)
Theorem block_too_short (self : DES.t) (B : list Z) :
  (length B < 64)%nat ->
  encrypt_block self B = Raise IndexError
  /\ decrypt_block self B = Raise IndexError.
Proof.
  intros HB.
  assert (_initial_permutation B = Raise IndexError) as Hip.
  { apply permute_raise. apply Exists_exists. exists 64. split.
    - unfold IP. do 24 right. by left.
    - right. unfold len. lia. }
  unfold encrypt_block, decrypt_block. by rewrite Hip.
Qed.

Lemma block_too_short_witness :
  (length (replicate 63 0) < 64)%nat
  /\ encrypt_block self_fips (replicate 63 0) = Raise IndexError
  /\ decrypt_block self_fips (replicate 63 0) = Raise IndexError.
Proof.
  split; [simpl; lia|].
  apply (block_too_short self_fips (replicate 63 0)). simpl. lia.
Defined.

Lemma table_ok_mono (n m : Z) (table : list Z) :
  n <= m -> table_ok n table = true -> table_ok m table = true.
Proof.
  intros Hnm. unfold table_ok. rewrite !forallb_forall.
  intros H t Ht. specialize (H t Ht). lia.
Qed.

Lemma sel_app (B extra : list Z) (t : Z) :
  1 <= t <= len B -> sel (B ++ extra) t = sel B t.
Proof.
  intros Ht. unfold len in Ht. unfold sel. by rewrite lookup_app_l by lia.
Qed.

(** X13: entries of a block beyond the first 64 are ignored by
    [encrypt_block] and [decrypt_block]. *)
Theorem block_too_long (self : DES.t) (B extra : list Z) :
  length B = 64%nat ->
  encrypt_block self (B ++ extra) = encrypt_block self B
  /\ decrypt_block self (B ++ extra) = decrypt_block self B.
Proof.
  intros HB.
  assert (_initial_permutation (B ++ extra) = _initial_permutation B) as Hip.
  { unfold _initial_permutation.
    rewrite (permute_Ok (B ++ extra)).
    2:{ apply (table_ok_mono 64); [|done]. unfold len. rewrite length_app. lia. }
    rewrite (permute_Ok B) by (unfold len; by rewrite HB).
    f_equal. apply list_fmap_ext. intros _ t Ht%list_elem_of_lookup_2. apply sel_app.
    unfold len. rewrite HB.
    assert (Forall (fun t => 1 <= t <= 64) IP) as Hall
      by (by apply table_ok_Forall).
    by apply (proj1 (Forall_forall _ _) Hall), list_elem_of_In. }
  unfold encrypt_block, decrypt_block. by rewrite Hip.
Qed.

Lemma block_too_long_witness :
  length (replicate 64 0) = 64%nat
  /\ encrypt_block self_fips (replicate 64 0 ++ [1; 1])
     = encrypt_block self_fips (replicate 64 0)
  /\ decrypt_block self_fips (replicate 64 0 ++ [1; 1])
     = decrypt_block self_fips (replicate 64 0).
Proof.
  split; [reflexivity|].
  apply (block_too_long self_fips (replicate 64 0) [1; 1]). reflexivity.
Defined.

(** ** Circular shifts and the key schedule *)

(** X14: two left circular shifts compose into one by the sum of the
    amounts, as long as the sum does not exceed the length. *)
Theorem left_circular_shift_compose (l : list Z) (a b : nat) :
  (a + b <= length l)%nat ->
  _left_circular_shift (_left_circular_shift l (Z.of_nat a)) (Z.of_nat b)
  = _left_circular_shift l (Z.of_nat (a + b)).
Proof.
  intros Hab.
  assert (length (rotl a l) = length l) as Hlen.
  { rewrite <- left_circular_shift_rotl by lia. unfold _left_circular_shift.
    rewrite slice_from_nat, slice_to_nat by lia.
    rewrite length_app, length_drop, length_take. lia. }
  rewrite (left_circular_shift_rotl l a) by lia.
  rewrite (left_circular_shift_rotl (rotl a l) b) by lia.
  rewrite (left_circular_shift_rotl l (a + b)) by lia.
  unfold rotl. by rewrite Nat.add_comm, Nat.iter_add.
Qed.

Lemma left_circular_shift_compose_witness :
  (1 + 2 <= length [1; 0; 0; 1; 1])%nat
  /\ _left_circular_shift (_left_circular_shift [1; 0; 0; 1; 1] (Z.of_nat 1))
       (Z.of_nat 2)
     = _left_circular_shift [1; 0; 0; 1; 1] (Z.of_nat (1 + 2)).
Proof.
  split; [simpl; lia|].
  apply (left_circular_shift_compose [1; 0; 0; 1; 1] 1 2). simpl. lia.
Defined.

(** X15: a shift amount of the length or more does not wrap around: the
    bit array comes back unchanged. *)
Theorem left_circular_shift_beyond (l : list Z) (s : Z) :
  len l <= s -> _left_circular_shift l s = l.
Proof.
  intros Hs. unfold len in Hs. unfold _left_circular_shift, slice_from, slice_to.
  assert (bound (length l) s = length l) as ->
    by (unfold bound; destruct (Z.ltb_spec s 0); lia).
  by rewrite drop_all, firstn_all.
Qed.

Lemma left_circular_shift_beyond_witness :
  len [1; 0; 0] <= 4 /\ _left_circular_shift [1; 0; 0] 4 = [1; 0; 0].
Proof.
  assert (len [1; 0; 0] <= 4) as H by (unfold len; simpl; lia).
  split; [exact H|]. exact (left_circular_shift_beyond [1; 0; 0] 4 H).
Defined.

Lemma spec_half_16 (h : list Z) : length h = 28%nat -> spec_half h 16 = h.
Proof.
  intros Hh. change (spec_half h 16) with (rotl 28 h).
  rewrite <- left_circular_shift_rotl by lia.
  apply left_circular_shift_beyond. unfold len. lia.
Qed.

(** X16: the shifts of the sixteen rounds add up to 28, a full turn of
    each half, so the last subkey is PC2 applied to the PC1 output
    itself. *)
Theorem last_subkey_unshifted (K : list byte) :
  length K = 8%nat ->
  exists self key_56 sk,
    DES.new K = Ok self
    /\ _permuted_choice_1 (key self) = Ok key_56
    /\ subkeys self !! 15%nat = Some sk
    /\ _permuted_choice_2 key_56 = Ok sk.
Proof.
  intros HK.
  destruct (new_spec K HK) as (self & key_56 & Hnew & Hkey & H56 & _ & Hsks).
  destruct (Hsks 15%nat) as (sk & Hsk & _ & Hp); [lia|].
  exists self, key_56, sk. split_and!; [done..|].
  assert (bits 56 key_56) as [Hlen _].
  { rewrite Hkey in H56. unfold _permuted_choice_1 in H56.
    pose proof (bytes_to_bit_array_bits K) as Hkb. rewrite HK in Hkb.
    destruct (permute_bits_Ok 64 _ PC1 Hkb eq_refl) as [Hp1 Hb].
    rewrite Hp1 in H56. by injection H56 as <-. }
  rewrite !spec_half_16 in Hp.
  - change 28 with (Z.of_nat 28) in Hp.
    by rewrite slice_to_nat, slice_from_nat, take_drop in Hp by lia.
  - change 28 with (Z.of_nat 28). rewrite slice_from_nat, length_drop; lia.
  - change 28 with (Z.of_nat 28). rewrite slice_to_nat, length_take; lia.
Qed.

Lemma last_subkey_unshifted_witness :
  length key_fips = 8%nat
  /\ exists self key_56 sk,
       DES.new key_fips = Ok self
       /\ _permuted_choice_1 (key self) = Ok key_56
       /\ subkeys self !! 15%nat = Some sk
       /\ _permuted_choice_2 key_56 = Ok sk.
Proof.
  split; [reflexivity|]. apply (last_subkey_unshifted key_fips). reflexivity.
Defined.

Lemma byte_bits_top7 (b b' : byte) :
  int_of_byte b / 2 = int_of_byte b' / 2 ->
  take 7 (byte_bits b) = take 7 (byte_bits b').
Proof.
  assert (forall c, take 7 (byte_bits c)
                    = (fun i => Z.land (Z.shiftr (int_of_byte c / 2) i) 1)
                        <$> [6; 5; 4; 3; 2; 1; 0]) as Htop
    by (intros c; destruct c; reflexivity).
  intros H. by rewrite !Htop, H.
Qed.

Lemma byte_bits_split (b : byte) :
  exists x, byte_bits b = take 7 (byte_bits b) ++ [x].
Proof.
  pose proof (proj1 (byte_bits_bits b)) as Hl.
  destruct (byte_bits b) as [|x7 [|x6 [|x5 [|x4 [|x3 [|x2 [|x1 [|x0 [|? ?]]]]]]]]];
    try discriminate Hl.
  by exists x0.
Qed.

Lemma PC1_ignores_parity (K K' : list byte) :
  length K = 8%nat ->
  Forall2 (fun b b' => int_of_byte b / 2 = int_of_byte b' / 2) K K' ->
  sel (_bytes_to_bit_array K) <$> PC1 = sel (_bytes_to_bit_array K') <$> PC1.
Proof.
  intros HK HF. pose proof (Forall2_length HF) as HK'. rewrite HK in HK'.
  symmetry in HK'. explode K HK. explode K' HK'.
  repeat match goal with
         | H : Forall2 _ (_ :: _) (_ :: _) |- _ => inversion_clear H
         end.
  repeat match goal with
         | H : int_of_byte _ / 2 = int_of_byte _ / 2 |- _ =>
             apply byte_bits_top7 in H
         end.
  rewrite !bytes_to_bit_array_cons.
  change (_bytes_to_bit_array []) with (@nil Z). rewrite !app_nil_r.
  repeat match goal with
         | |- context [byte_bits ?b ++ _] =>
             let x := fresh "x" in
             let Hx := fresh "Hx" in
             destruct (byte_bits_split b) as [x Hx]; rewrite Hx; clear Hx
         | |- context [_ ++ byte_bits ?b] =>
             let x := fresh "x" in
             let Hx := fresh "Hx" in
             destruct (byte_bits_split b) as [x Hx]; rewrite Hx; clear Hx
         end.
  repeat match goal with
         | H : take 7 (byte_bits _) = take 7 (byte_bits _) |- _ =>
             rewrite <- H; clear H
         end.
  repeat match goal with
         | |- context [take 7 (byte_bits ?b)] =>
             let l := fresh "l" in
             let Hl := fresh "Hl" in
             assert (length (take 7 (byte_bits b)) = 7%nat) as Hl
               by (rewrite length_take, (proj1 (byte_bits_bits b)); lia);
             generalize dependent (take 7 (byte_bits b)); intros l Hl;
             explode l Hl
         end.
  reflexivity.
Qed.

(** X17: the lowest bit of every key byte (the parity bit) is dropped by
    PC1: two eight-byte keys that agree on the upper seven bits of every
    byte generate the same subkeys and so encrypt and decrypt alike. *)
Theorem parity_bits_ignored (K K' : list byte) :
  length K = 8%nat ->
  Forall2 (fun b b' => int_of_byte b / 2 = int_of_byte b' / 2) K K' ->
  exists self self',
    DES.new K = Ok self /\ DES.new K' = Ok self'
    /\ subkeys self = subkeys self'
    /\ (forall M, encrypt self M = encrypt self' M)
    /\ (forall ct, decrypt self ct = decrypt self' ct).
Proof.
  intros HK HF. pose proof (Forall2_length HF) as HK'. rewrite HK in HK'.
  symmetry in HK'.
  pose proof (PC1_ignores_parity K K' HK HF) as Hpc1.
  destruct (new_Ok K HK) as (self & Hnew & _).
  destruct (new_Ok K' HK') as (self' & Hnew' & _).
  exists self, self'. split; [done|]. split; [done|].
  assert (subkeys self = subkeys self') as Hsk.
  { unfold DES.new, len in Hnew, Hnew'. rewrite HK in Hnew. rewrite HK' in Hnew'.
    simpl negb in Hnew, Hnew'. cbv iota in Hnew, Hnew'.
    assert (_generate_subkeys (_bytes_to_bit_array K)
            = _generate_subkeys (_bytes_to_bit_array K')) as Hgen.
    { unfold _generate_subkeys, _permuted_choice_1.
      pose proof (bytes_to_bit_array_bits K) as Hkb. rewrite HK in Hkb.
      pose proof (bytes_to_bit_array_bits K') as Hkb'. rewrite HK' in Hkb'.
      destruct (permute_bits_Ok 64 _ PC1 Hkb eq_refl) as [-> _].
      destruct (permute_bits_Ok 64 _ PC1 Hkb' eq_refl) as [-> _].
      by rewrite Hpc1. }
    rewrite Hgen in Hnew.
    destruct (_generate_subkeys (_bytes_to_bit_array K')); [|done].
    simpl in Hnew, Hnew'. by injection Hnew as <-; injection Hnew' as <-. }
  assert (forall B, encrypt_block self B = encrypt_block self' B) as Henc
    by (intros B; unfold encrypt_block; by rewrite Hsk).
  assert (forall B, decrypt_block self B = decrypt_block self' B) as Hdec
    by (intros B; unfold decrypt_block; by rewrite Hsk).
  split_and!; [done| |].
  - intros M. unfold encrypt. destruct (pad M) as [padded|e]; [|done].
    rewrite !Ok_bind. unfold block_loop. apply for_each_ext.
    intros i out _. by rewrite Henc.
  - intros ct. unfold decrypt. destruct (negb _); [done|].
    assert (block_loop (decrypt_block self) ct
            = block_loop (decrypt_block self') ct) as ->; [|done].
    unfold block_loop. apply for_each_ext. intros i out _. by rewrite Hdec.
Qed.

Lemma parity_bits_ignored_witness :
  length key_fips = 8%nat
  /\ Forall2 (fun b b' => int_of_byte b / 2 = int_of_byte b' / 2)
       key_fips [x12; x35; x56; x78; x9a; xbd; xde; xf0]
  /\ exists self self',
       DES.new key_fips = Ok self
       /\ DES.new [x12; x35; x56; x78; x9a; xbd; xde; xf0] = Ok self'
       /\ subkeys self = subkeys self'
       /\ (forall M, encrypt self M = encrypt self' M)
       /\ (forall ct, decrypt self ct = decrypt self' ct).
Proof.
  assert (Forall2 (fun b b' => int_of_byte b / 2 = int_of_byte b' / 2)
            key_fips [x12; x35; x56; x78; x9a; xbd; xde; xf0]) as H
    by (repeat constructor).
  split; [reflexivity|]. split; [exact H|].
  exact (parity_bits_ignored key_fips _ eq_refl H).
Defined.

(** X18: the constructor accepts keys whose subkey list reads the same
    in both directions (weak keys); for such an instance
    [decrypt_block] is [encrypt_block], and encrypting a 64-bit block
    twice gives the block back. *)
Theorem palindromic_schedule_involution (K : list byte) (self : DES.t)
    (B : list Z) :
  DES.new K = Ok self ->
  reverse (subkeys self) = subkeys self ->
  bits 64 B ->
  decrypt_block self B = encrypt_block self B
  /\ (c ← encrypt_block self B; encrypt_block self c) = Ok B.
Proof.
  intros Hnew Hrev HB.
  assert (wf_keys self) as Hwf.
  { assert (length K = 8%nat) as HK.
    { unfold DES.new, len in Hnew.
      destruct (Z.eqb_spec (Z.of_nat (length K)) 8); [lia|done]. }
    destruct (new_Ok K HK) as (self' & Hnew' & Hwf). congruence. }
  assert (forall C, decrypt_block self C = encrypt_block self C) as Hsame.
  { intros C. rewrite decrypt_block_reversed by apply Hwf.
    rewrite Hrev. by destruct self. }
  split; [apply Hsame|].
  destruct (block_roundtrip self B Hwf HB) as (C & -> & _ & HD).
  by rewrite Ok_bind, <- Hsame.
Qed.

Lemma palindromic_schedule_involution_witness :
  DES.new key_weak = Ok self_weak
  /\ reverse (subkeys self_weak) = subkeys self_weak
  /\ bits 64 (_bytes_to_bit_array pt_fips)
  /\ decrypt_block self_weak (_bytes_to_bit_array pt_fips)
     = encrypt_block self_weak (_bytes_to_bit_array pt_fips)
  /\ (c ← encrypt_block self_weak (_bytes_to_bit_array pt_fips);
      encrypt_block self_weak c) = Ok (_bytes_to_bit_array pt_fips).
Proof.
  assert (DES.new key_weak = Ok self_weak) as Hnew by (vm_compute; reflexivity).
  assert (reverse (subkeys self_weak) = subkeys self_weak) as Hrev
    by (vm_compute; reflexivity).
  split; [exact Hnew|]. split; [exact Hrev|].
  split; [exact (bytes_to_bit_array_bits pt_fips)|].
  exact (palindromic_schedule_involution key_weak self_weak _ Hnew Hrev
           (bytes_to_bit_array_bits pt_fips)).
Defined.

(** ** Messages *)

Lemma for_each_raise {S A : Type} (xs1 xs2 : list A) (x : A)
    (body : A -> S -> result S) (s s1 : S) (e : exn) :
  for_each xs1 body s = Ok s1 -> body x s1 = Raise e ->
  for_each (xs1 ++ x :: xs2) body s = Raise e.
Proof.
  intros H1 Hx. rewrite for_each_app, H1, Ok_bind. simpl. by rewrite Hx.
Qed.

Lemma chunk_app_shift (d1 d2 : list byte) (n j : nat) :
  length d1 = (8 * n)%nat -> chunk (n + j) (d1 ++ d2) = chunk j d2.
Proof.
  intros H1. unfold chunk.
  rewrite drop_app_ge by lia. do 2 f_equal. lia.
Qed.

(** The loop on whole blocks, block by block. *)
Lemma block_loop_blocks (f : list Z -> result (list Z)) (data : list byte)
    (n : nat) :
  (forall B, bits 64 B -> exists C, f B = Ok C /\ bits 64 C) ->
  length data = (8 * n)%nat ->
  exists out,
    block_loop f data = Ok out /\ length out = (8 * n)%nat
    /\ forall k, (k < n)%nat ->
         exists nb, f (_bytes_to_bit_array (chunk k data)) = Ok nb
                    /\ _bit_array_to_bytes nb = Ok (chunk k out).
Proof.
  intros Hf Hdata. unfold block_loop, len. rewrite Hdata, range3_blocks.
  match goal with |- exists _, for_each ?xs ?body ?s = _ /\ _ =>
    destruct (for_each_inv
      (fun k out =>
         length out = (8 * k)%nat
         /\ forall j, (j < k)%nat ->
              exists nb, f (_bytes_to_bit_array (chunk j data)) = Ok nb
                         /\ _bit_array_to_bytes nb = Ok (chunk j out))
      xs body s) as (out & -> & Hout)
  end.
  - split; [done|]. intros j Hj. lia.
  - intros k x out Hx [Hout Hprev]. apply blocks_lookup in Hx as [-> Hk].
    destruct (slice_chunk data k n Hdata Hk) as [-> Hc].
    destruct (Hf (_bytes_to_bit_array (chunk k data))) as (C & HC & HCb).
    { pose proof (bytes_to_bit_array_bits (chunk k data)) as H.
      by rewrite Hc in H. }
    rewrite HC. destruct (bits_are_bytes 8 C HCb) as (cb & Hcb & <-).
    rewrite Ok_bind, bit_array_to_bytes_of_bytes, Ok_bind.
    eexists. split; [done|]. split; [rewrite length_app; lia|].
    intros j Hj. destruct (decide (j = k)) as [->|Hne].
    + rewrite chunk_app_r by done. eexists. split; [exact HC|].
      apply bit_array_to_bytes_of_bytes.
    + rewrite (chunk_app_l _ _ j k) by (done || lia). apply Hprev. lia.
  - rewrite length_fmap, length_seq in Hout. destruct Hout. eauto.
Qed.

Lemma block_loop_app (f : list Z -> result (list Z)) (d1 d2 : list byte)
    (n1 n2 : nat) :
  (forall B, bits 64 B -> exists C, f B = Ok C /\ bits 64 C) ->
  length d1 = (8 * n1)%nat -> length d2 = (8 * n2)%nat ->
  exists o1 o2,
    block_loop f d1 = Ok o1 /\ block_loop f d2 = Ok o2
    /\ block_loop f (d1 ++ d2) = Ok (o1 ++ o2).
Proof.
  intros Hf H1 H2.
  destruct (block_loop_blocks f d1 n1 Hf H1) as (o1 & Ho1 & Hl1 & Hc1).
  destruct (block_loop_blocks f d2 n2 Hf H2) as (o2 & Ho2 & Hl2 & Hc2).
  exists o1, o2. split_and!; [done..|].
  apply block_loop_chunks with (n := (n1 + n2)%nat).
  - rewrite length_app. lia.
  - rewrite length_app. lia.
  - intros k Hk. destruct (decide (k < n1)%nat) as [Hlt|Hge].
    + rewrite (chunk_app_l d1 d2 k n1), (chunk_app_l o1 o2 k n1) by done.
      by apply Hc1.
    + replace k with (n1 + (k - n1))%nat by lia.
      rewrite (chunk_app_shift d1 d2), (chunk_app_shift o1 o2) by done.
      apply Hc2. lia.
Qed.

Lemma encrypt_block_Ok (self : DES.t) (B : list Z) :
  wf_keys self -> bits 64 B ->
  exists C, encrypt_block self B = Ok C /\ bits 64 C.
Proof.
  intros Hwf HB. destruct (block_roundtrip self B Hwf HB) as (C & HC & HCb & _).
  eauto.
Qed.

Lemma pad_app_aligned (M1 M2 padded : list byte) :
  (length M1 mod 8 = 0)%nat -> pad M2 = Ok padded ->
  pad (M1 ++ M2) = Ok (M1 ++ padded).
Proof.
  intros H1 Hpad.
  assert (length (M1 ++ M2) mod 8 = length M2 mod 8)%nat as Hmod.
  { rewrite length_app. destruct (aligned_blocks M1 H1) as [n ->].
    rewrite Nat.add_comm, Nat.mul_comm. apply Nat.Div0.mod_add. }
  destruct (decide (length M2 mod 8 = 0)%nat) as [H2|H2].
  - rewrite pad_aligned in Hpad by done. injection Hpad as <-.
    apply pad_aligned. by rewrite Hmod.
  - destruct (pad_unaligned M2 H2) as (p & b & Hp & Hpe & Hb & Hpad2).
    rewrite Hpad2 in Hpad. injection Hpad as <-.
    unfold pad, len in *. rewrite length_app in *.
    replace (Z.of_nat (length M1 + length M2) mod 8)
      with (Z.of_nat (length M2) mod 8).
    + destruct (_ <? 8).
      * destruct (byte_of_int _) as [b'|e]; [|done].
        rewrite Ok_bind in *. injection Hpad2 as Heq. apply app_inv_head in Heq.
        by rewrite Heq, app_assoc.
      * injection Hpad2 as Heq. apply (f_equal length) in Heq.
        rewrite length_app, length_replicate in Heq. lia.
    + change 8 with (Z.of_nat 8). rewrite <- !Nat2Z.inj_mod.
      by rewrite Hmod.
Qed.

(** X19: blocks are encrypted independently (ECB): when [M1] is a whole
    number of blocks, the encryption of [M1 ++ M2] is the encryption of
    [M1] followed by the encryption of [M2]. *)
Theorem encrypt_app_aligned (K M1 M2 : list byte) :
  length K = 8%nat -> (length M1 mod 8 = 0)%nat ->
  exists self c1 c2,
    DES.new K = Ok self
    /\ encrypt self M1 = Ok c1 /\ encrypt self M2 = Ok c2
    /\ encrypt self (M1 ++ M2) = Ok (c1 ++ c2).
Proof.
  intros HK H1. destruct (new_Ok K HK) as (self & Hnew & Hwf).
  destruct (encrypt_then_decrypt self M2 Hwf)
    as (padded & c2 & Hpad & Hc2 & _ & Hal2 & _).
  destruct (aligned_blocks M1 H1) as [n1 Hn1].
  destruct (aligned_blocks padded Hal2) as [n2 Hn2].
  destruct (block_loop_app (encrypt_block self) M1 padded n1 n2)
    as (o1 & o2 & Ho1 & Ho2 & Happ); [|done..|].
  { intros B HB. by apply encrypt_block_Ok. }
  exists self, o1, o2. split; [done|].
  unfold encrypt in *. rewrite Hpad, Ok_bind in Hc2.
  rewrite pad_aligned, (pad_app_aligned M1 M2 padded), Hpad, !Ok_bind by done.
  split_and!; [done| |done]. congruence.
Qed.

Lemma encrypt_app_aligned_witness :
  length key_fips = 8%nat /\ (length pt_fips mod 8 = 0)%nat
  /\ exists self c1 c2,
       DES.new key_fips = Ok self
       /\ encrypt self pt_fips = Ok c1 /\ encrypt self [x41; x42] = Ok c2
       /\ encrypt self (pt_fips ++ [x41; x42]) = Ok (c1 ++ c2).
Proof.
  split; [reflexivity|]. split; [reflexivity|].
  apply (encrypt_app_aligned key_fips pt_fips [x41; x42]); reflexivity.
Defined.

(** X20: with an instance built from an eight-byte key, [decrypt] raises
    [ValueError] exactly on lengths that are not a multiple of 8, raises
    [IndexError] exactly on the empty buffer, and returns a result on
    every other buffer. *)
Theorem decrypt_outcomes (K ct : list byte) :
  length K = 8%nat ->
  exists self,
    DES.new K = Ok self
    /\ (decrypt self ct = Raise ValueError <-> (length ct mod 8 <> 0)%nat)
    /\ (decrypt self ct = Raise IndexError <-> ct = [])
    /\ ((exists pt, decrypt self ct = Ok pt)
        <-> ct <> [] /\ (length ct mod 8 = 0)%nat).
Proof.
  intros HK. destruct (new_Ok K HK) as (self & Hnew & Hwf).
  exists self. split; [done|].
  destruct (decide (length ct mod 8 = 0)%nat) as [Hal|Hne].
  - destruct (decide (ct = [])) as [->|Hnil].
    + split_and!; split; try done.
      * intros [pt Hpt]. discriminate Hpt.
      * by intros [? _].
    + destruct (decrypt_accepts self ct Hwf Hnil Hal) as (_ & _ & _ & pt & Hpt).
      rewrite Hpt. split_and!; split; try done. eauto.
  - rewrite (decrypt_unaligned self ct Hne). split_and!; split; try done.
    + intros ->. by destruct Hne.
    + by intros [pt ?].
    + by intros [_ ?].
Qed.

Lemma decrypt_outcomes_witness :
  length key_fips = 8%nat
  /\ exists self,
       DES.new key_fips = Ok self
       /\ (decrypt self ct_zero = Raise ValueError
           <-> (length ct_zero mod 8 <> 0)%nat)
       /\ (decrypt self ct_zero = Raise IndexError <-> ct_zero = [])
       /\ ((exists pt, decrypt self ct_zero = Ok pt)
           <-> ct_zero <> [] /\ (length ct_zero mod 8 = 0)%nat).
Proof.
  split; [reflexivity|]. apply (decrypt_outcomes key_fips ct_zero). reflexivity.
Defined.

(** X21: for a message [M] that is a whole number of blocks, decrypting
    its encryption gives what the strip step of [decrypt] makes of [M]
    itself (an [IndexError] when [M] is empty). *)
Theorem roundtrip_aligned (K M : list byte) :
  length K = 8%nat -> (length M mod 8 = 0)%nat ->
  (self ← DES.new K; c ← encrypt self M; decrypt self c) = unpad M.
Proof.
  intros HK Hal. destruct (new_Ok K HK) as (self & -> & Hwf). rewrite Ok_bind.
  destruct (encrypt_then_decrypt self M Hwf)
    as (padded & ct & Hpad & -> & _ & _ & Hdec).
  rewrite Ok_bind, Hdec. rewrite pad_aligned in Hpad by done.
  by injection Hpad as <-.
Qed.

Lemma roundtrip_aligned_witness :
  length key_fips = 8%nat /\ (length msg_tail1 mod 8 = 0)%nat
  /\ (self ← DES.new key_fips; c ← encrypt self msg_tail1; decrypt self c)
     = unpad msg_tail1.
Proof.
  split; [reflexivity|]. split; [reflexivity|].
  apply (roundtrip_aligned key_fips msg_tail1); reflexivity.
Defined.

Lemma int_of_byte_inj (b b' : byte) : int_of_byte b = int_of_byte b' -> b = b'.
Proof.
  unfold int_of_byte. intros H%N2Z.inj.
  pose proof (Byte.of_to_N b) as Hb. rewrite H, Byte.of_to_N in Hb.
  by injection Hb.
Qed.

(** X22: the strip step only ever removes a tail of copies of the last
    byte: its result is a prefix of the buffer, every removed byte
    equals the last byte of the buffer, and nothing is removed unless
    that byte is below 8. *)
Theorem unpad_removes_last_byte_copies (buf pt : list byte) :
  unpad buf = Ok pt ->
  exists tail p,
    buf = pt ++ tail /\ list.last buf = Some p
    /\ Forall (fun b => b = p) tail
    /\ (tail = [] \/ int_of_byte p < 8).
Proof.
  unfold unpad. intros H.
  destruct (list.last buf) as [p|] eqn:Hlast.
  2:{ apply last_None in Hlast. by subst buf. }
  rewrite (getitem_minus_1 _ p Hlast), Ok_bind in H.
  destruct (strip_cond buf (int_of_byte p)) eqn:Hcond.
  - injection H as <-. unfold strip_cond in Hcond.
    apply andb_prop in Hcond as [Hlt Hall]. unfold slice_from, slice_to in *.
    exists (drop (bound (length buf) (- int_of_byte p)) buf), p.
    split_and!; [by rewrite take_drop|done| |right; lia].
    apply Forall_forall. intros b Hb. rewrite forallb_forall in Hall.
    apply int_of_byte_inj. specialize (Hall b Hb). lia.
  - injection H as <-. exists [], p. rewrite app_nil_r. by split_and!; [..|left].
Qed.

Lemma unpad_removes_last_byte_copies_witness :
  unpad msg_tail1 = Ok [x41; x42; x43; x44; x45; x46; x47]
  /\ exists tail p,
       msg_tail1 = [x41; x42; x43; x44; x45; x46; x47] ++ tail
       /\ list.last msg_tail1 = Some p
       /\ Forall (fun b => b = p) tail
       /\ (tail = [] \/ int_of_byte p < 8).
Proof.
  assert (unpad msg_tail1 = Ok [x41; x42; x43; x44; x45; x46; x47]) as H
    by reflexivity.
  split; [exact H|]. exact (unpad_removes_last_byte_copies _ _ H).
Defined.

(** ** Bit arrays that are not whole bytes *)

Lemma range3_blocks_ragged (q r : nat) :
  (1 <= r <= 7)%nat ->
  range3 0 (Z.of_nat (8 * q + r)) 8 = (fun k => Z.of_nat (8 * k)) <$> seq 0 (S q).
Proof.
  intros Hr. unfold range3. change (0 <? 8) with true. cbv iota zeta.
  replace ((Z.of_nat (8 * q + r) - 0 + 8 - 1) / 8) with (Z.of_nat (S q)).
  - rewrite Nat2Z.id. apply list_fmap_ext. intros _ k _. lia.
  - apply Z.div_unique with (r := Z.of_nat r - 1); lia.
Qed.

Lemma getitem_app_l {A : Type} (l1 l2 : list A) (i : nat) :
  (i < length l1)%nat ->
  getitem (l1 ++ l2) (Z.of_nat i) = getitem l1 (Z.of_nat i).
Proof.
  intros Hi. destruct (lookup_lt_is_Some_2 l1 i Hi) as [x Hx].
  rewrite (getitem_nat l1 i x Hx). apply getitem_nat. by apply lookup_app_l_Some.
Qed.

(** X23: on a bit array of 0/1 entries whose length is not a multiple of
    8, [_bit_array_to_bytes] raises [IndexError]: the last group runs
    past the end of the array. *)
Theorem bit_array_to_bytes_ragged (m : nat) (l : list Z) :
  bits m l -> (m mod 8 <> 0)%nat ->
  _bit_array_to_bytes l = Raise IndexError.
Proof.
  intros [Hl Hb] Hm.
  pose proof (Nat.div_mod_eq m 8) as Hdm.
  pose proof (Nat.mod_upper_bound m 8) as Hub.
  set (q := (m / 8)%nat) in *. set (r := (m mod 8)%nat) in *.
  assert (bits (8 * q) (take (8 * q) l)) as H1
    by (apply (bits_take m); [lia|done]).
  destruct (bits_are_bytes q _ H1) as (bs & Hbs & Hbits).
  unfold _bit_array_to_bytes, len. rewrite Hl, Hdm.
  rewrite range3_blocks_ragged by lia.
  rewrite seq_S, fmap_app.
  change ((fun k => Z.of_nat (8 * k)) <$> [(0 + q)%nat])
    with [Z.of_nat (8 * q)].
  apply for_each_raise with (s1 := bs).
  - pose proof (bit_array_to_bytes_of_bytes bs) as Hloop.
    unfold _bit_array_to_bytes, len in Hloop.
    rewrite (proj1 (bytes_to_bit_array_bits bs)), Hbs, range3_blocks in Hloop.
    rewrite <- Hloop. apply for_each_ext.
    intros i res Hi. apply list_elem_of_fmap in Hi as (k & -> & Hk).
    apply list_elem_of_lookup in Hk as (k' & Hk').
    apply lookup_seq in Hk' as [-> Hk]. rewrite Nat.add_0_l in *.
    cbv beta. f_equal. apply for_each_ext. intros j acc Hj.
    apply list_elem_of_lookup in Hj as [j' Hj'].
    change 8 with (Z.of_nat 8) in Hj'. apply range_lookup in Hj' as [-> Hj].
    rewrite <- Nat2Z.inj_add, Hbits. rewrite <- (take_drop (8 * q) l) at 1.
    by rewrite getitem_app_l by (rewrite (proj1 H1); lia).
  - match goal with |- (for_each ?xs ?body ?s ≫= _) = _ =>
      assert (for_each xs body s = Raise IndexError) as ->; [|done]
    end.
    change 8 with (Z.of_nat 8). rewrite (range_split 8 r) by lia.
    match goal with |- for_each (?xs1 ++ _) ?body ?s = _ =>
      destruct (for_each_inv (fun _ _ => True) xs1 body s) as (acc & Hacc & _)
    end.
    + done.
    + intros j x acc Hx _. rewrite list_lookup_fmap in Hx.
      apply fmap_Some in Hx as (j' & Hj' & ->).
      apply lookup_seq in Hj' as [-> Hj]. rewrite Nat.add_0_l in *.
      destruct (lookup_lt_is_Some_2 l (8 * q + j)) as [y Hy]; [lia|].
      rewrite <- Nat2Z.inj_add, (getitem_nat _ _ _ Hy). by eexists.
    + apply for_each_raise with (s1 := acc); [done|].
      rewrite getitem_out_of_range; [done|]. unfold len. lia.
Qed.

Lemma bit_array_to_bytes_ragged_witness :
  bits 10 (replicate 10 1) /\ (10 mod 8 <> 0)%nat
  /\ _bit_array_to_bytes (replicate 10 1) = Raise IndexError.
Proof.
  assert (bits 10 (replicate 10 1)) as H by (apply bits_replicate; by right).
  assert (10 mod 8 <> 0)%nat as Hm by (simpl; lia).
  split; [exact H|]. split; [exact Hm|].
  exact (bit_array_to_bytes_ragged 10 (replicate 10 1) H Hm).
Defined.

(** ** The f-function and the S-boxes *)

(** X24: on a 32-bit half and a 48-bit subkey every stage of
    [_f_function] succeeds with its width: expansion gives 48 bits, the
    XOR with the subkey 48 bits, the S-boxes 32 bits and permutation P
    32 bits, which is the result. *)
Theorem f_function_stages (r k : list Z) :
  bits 32 r -> bits 48 k ->
  exists expanded xored substituted f,
    _expansion r = Ok expanded /\ bits 48 expanded
    /\ _xor expanded k = Ok xored /\ bits 48 xored
    /\ _s_box_substitution xored = Ok substituted /\ bits 32 substituted
    /\ _permutation_p substituted = Ok f /\ bits 32 f
    /\ _f_function r k = Ok f.
Proof.
  intros Hr Hk. unfold _f_function, _expansion, _permutation_p.
  destruct (permute_bits_Ok 32 r E Hr eq_refl) as [He Heb].
  change (length E) with 48%nat in Heb.
  assert (bits 48 (zip_with Z.lxor (sel r <$> E) k)) as Hxb by (by apply xor_bits).
  destruct (s_box_substitution_Ok _ Hxb) as (sub & Hsub & Hsb).
  destruct (permute_bits_Ok 32 sub P Hsb eq_refl) as [Hp Hpb].
  assert (_xor (sel r <$> E) k = Ok (zip_with Z.lxor (sel r <$> E) k)) as Hx.
  { apply xor_Ok. by rewrite (proj1 Heb), (proj1 Hk). }
  do 4 eexists. split_and!; try done.
  by rewrite He, Ok_bind, Hx, Ok_bind, Hsub, Ok_bind.
Qed.

Lemma f_function_stages_witness :
  bits 32 (replicate 32 1) /\ bits 48 (replicate 48 0)
  /\ exists expanded xored substituted f,
       _expansion (replicate 32 1) = Ok expanded /\ bits 48 expanded
       /\ _xor expanded (replicate 48 0) = Ok xored /\ bits 48 xored
       /\ _s_box_substitution xored = Ok substituted /\ bits 32 substituted
       /\ _permutation_p substituted = Ok f /\ bits 32 f
       /\ _f_function (replicate 32 1) (replicate 48 0) = Ok f.
Proof.
  assert (bits 32 (replicate 32 1)) as H1 by (apply bits_replicate; by right).
  assert (bits 48 (replicate 48 0)) as H2 by (apply bits_replicate; by left).
  split; [exact H1|]. split; [exact H2|]. exact (f_function_stages _ _ H1 H2).
Defined.

(** X25: a group of fewer than six entries makes the S-box lookup raise
    [IndexError], whichever S-box is asked for. *)
Theorem s_box_group_short (i : Z) (group : list Z) :
  (length group < 6)%nat -> s_box_group i group = Raise IndexError.
Proof.
  intros Hg. unfold s_box_group.
  destruct (getitem_Ok_or_IndexError group 0) as [[g0 ->]| ->]; [|done].
  rewrite Ok_bind, (getitem_out_of_range group 5); [done|].
  unfold len. lia.
Qed.

Lemma s_box_group_short_witness :
  (length [1; 0; 1] < 6)%nat /\ s_box_group 0 [1; 0; 1] = Raise IndexError.
Proof.
  split; [simpl; lia|]. apply (s_box_group_short 0 [1; 0; 1]). simpl. lia.
Defined.

(** ** Complementation *)

Lemma Ok_inj {A : Type} (a b : A) : Ok a = Ok b -> a = b.
Proof. by intros [= ->]. Qed.

Lemma byte_bits_cpl (b : byte) : byte_bits (cpl_byte b) = cpl <$> byte_bits b.
Proof. destruct b; reflexivity. Qed.

Lemma bytes_to_bit_array_cpl (data : list byte) :
  _bytes_to_bit_array (cpl_byte <$> data) = cpl <$> _bytes_to_bit_array data.
Proof.
  induction data as [|b data IH]; [done|].
  rewrite fmap_cons, !bytes_to_bit_array_cons, fmap_app, byte_bits_cpl. by f_equal.
Qed.

Lemma bits_cpl n (l : list Z) : bits n l -> bits n (cpl <$> l).
Proof.
  intros [Hl Hb]. split; [by rewrite length_fmap|].
  apply Forall_fmap. eapply Forall_impl; [|exact Hb].
  intros b [-> | ->]; [by right|by left].
Qed.

Lemma permute_total_fmap (g : Z -> Z) (block table : list Z) :
  table_ok (len block) table = true ->
  sel (g <$> block) <$> table = g <$> (sel block <$> table).
Proof.
  intros Hok%table_ok_Forall. rewrite <- list_fmap_compose.
  apply list_fmap_ext. intros _ t Ht%list_elem_of_lookup_2%list_elem_of_In.
  pose proof (proj1 (Forall_forall _ _) Hok t Ht) as Hr. unfold len in Hr.
  simpl. unfold sel. rewrite list_lookup_fmap.
  by destruct (lookup_lt_is_Some_2 block (Z.to_nat (t - 1))) as [x ->]; [lia|].
Qed.

Lemma xor_cpl_both (a b : list Z) :
  Forall is_bit a -> Forall is_bit b ->
  zip_with Z.lxor (cpl <$> a) (cpl <$> b) = zip_with Z.lxor a b.
Proof.
  intros Ha. revert b. induction Ha as [|x a Hx _ IH]; intros b Hb; [done|].
  destruct Hb as [|y b Hy Hb]; [done|]. simpl. rewrite IH by done. f_equal.
  by destruct Hx as [-> | ->], Hy as [-> | ->].
Qed.

Lemma xor_cpl_left (a b : list Z) :
  Forall is_bit a -> Forall is_bit b ->
  zip_with Z.lxor (cpl <$> a) b = cpl <$> zip_with Z.lxor a b.
Proof.
  intros Ha. revert b. induction Ha as [|x a Hx _ IH]; intros b Hb; [done|].
  destruct Hb as [|y b Hy Hb]; [done|]. simpl. rewrite IH by done. f_equal.
  by destruct Hx as [-> | ->], Hy as [-> | ->].
Qed.

Lemma f_function_cpl (r k : list Z) :
  bits 32 r -> bits 48 k ->
  _f_function (cpl <$> r) (cpl <$> k) = _f_function r k.
Proof.
  intros Hr Hk. unfold _f_function, _expansion.
  destruct (permute_bits_Ok 32 r E Hr eq_refl) as [-> He].
  destruct (permute_bits_Ok 32 _ E (bits_cpl _ _ Hr) eq_refl) as [-> _].
  rewrite permute_total_fmap by (unfold len; by rewrite (proj1 Hr)).
  rewrite !Ok_bind, !xor_Ok
    by (rewrite ?length_fmap, (proj1 Hk); reflexivity).
  by rewrite xor_cpl_both by (apply He || apply Hk).
Qed.

Lemma des_round_cpl (l r k : list Z) :
  bits 32 l -> bits 32 r -> bits 48 k ->
  exists nr,
    _des_round l r k = Ok (r, nr) /\ bits 32 nr
    /\ _des_round (cpl <$> l) (cpl <$> r) (cpl <$> k)
       = Ok (cpl <$> r, cpl <$> nr).
Proof.
  intros Hl Hr Hk. destruct (des_round_Ok l r k Hl Hr Hk) as (f & Hf & Hfb & Hround).
  exists (zip_with Z.lxor l f). split_and!; [done|by apply xor_bits|].
  unfold _des_round. rewrite f_function_cpl, Hf, Ok_bind by done.
  rewrite xor_Ok by (rewrite length_fmap, (proj1 Hl), (proj1 Hfb); done).
  by rewrite xor_cpl_left by (apply Hl || apply Hfb).
Qed.

Lemma rounds_cpl (ks : list (list Z)) (l r l' r' : list Z) :
  Forall (bits 48) ks -> bits 32 l -> bits 32 r ->
  rounds ks (l, r) = Ok (l', r') ->
  rounds ((fun k : list Z => cpl <$> k) <$> ks) (cpl <$> l, cpl <$> r) = Ok (cpl <$> l', cpl <$> r').
Proof.
  intros Hks. revert l r. induction Hks as [|k ks Hk _ IH]; intros l r Hl Hr.
  - by intros [= <- <-].
  - unfold rounds. simpl.
    destruct (des_round_cpl l r k Hl Hr Hk) as (nr & -> & Hnr & ->).
    rewrite !Ok_bind. by apply IH.
Qed.

Lemma encrypt_block_cpl (self self' : DES.t) (B C : list Z) :
  wf_keys self -> subkeys self' = (fun k : list Z => cpl <$> k) <$> subkeys self ->
  bits 64 B -> encrypt_block self B = Ok C ->
  encrypt_block self' (cpl <$> B) = Ok (cpl <$> C).
Proof.
  intros [Hn Hks] Hsk HB.
  unfold encrypt_block, _initial_permutation, _inverse_initial_permutation.
  destruct (permute_bits_Ok 64 B IP HB eq_refl) as [-> HX].
  destruct (permute_bits_Ok 64 _ IP (bits_cpl _ _ HB) eq_refl) as [-> _].
  rewrite permute_total_fmap by (unfold len; by rewrite (proj1 HB)).
  set (X := sel B <$> IP) in *. rewrite !Ok_bind.
  destruct (halves_split X HX) as (-> & -> & Hs).
  destruct (halves_split _ (bits_cpl _ _ HX)) as (-> & -> & _).
  rewrite !rounds_forward by (rewrite ?Hsk, ?length_fmap; done).
  destruct (rounds_Ok _ _ Hks Hs) as ([l r] & Hfw & Hl & Hr). simpl in Hl, Hr.
  rewrite Hfw, Ok_bind, Hsk.
  pose proof Hs as [Hs1 Hs2]. cbn [fst snd] in Hs1, Hs2.
  rewrite <- fmap_take, <- fmap_drop.
  rewrite (rounds_cpl _ _ _ _ _ Hks Hs1 Hs2 Hfw), Ok_bind.
  destruct (halves_join l r Hl Hr) as (Hrl & _ & _).
  destruct (permute_bits_Ok 64 (r ++ l) IP_INV Hrl eq_refl) as [-> _].
  intros [= <-]. rewrite <- fmap_app.
  destruct (permute_bits_Ok 64 _ IP_INV (bits_cpl _ _ Hrl) eq_refl) as [-> _].
  by rewrite permute_total_fmap by (unfold len; by rewrite (proj1 Hrl)).
Qed.

Lemma rotl_fmap (g : Z -> Z) (n : nat) (l : list Z) :
  rotl n (g <$> l) = g <$> rotl n l.
Proof.
  unfold rotl. induction n as [|n IH]; [done|]. simpl. rewrite IH.
  destruct (Nat.iter n rotl1 l) as [|x t]; [done|]. simpl.
  by rewrite fmap_app.
Qed.

Lemma spec_half_fmap (g : Z -> Z) (h : list Z) (i : nat) :
  spec_half (g <$> h) i = g <$> spec_half h i.
Proof. induction i as [|i IH]; [done|]. simpl. by rewrite IH, rotl_fmap. Qed.

Lemma subkeys_cpl (K : list byte) (self self' : DES.t) :
  DES.new K = Ok self -> DES.new (cpl_byte <$> K) = Ok self' ->
  subkeys self' = (fun k : list Z => cpl <$> k) <$> subkeys self.
Proof.
  intros Hnew Hnew'.
  assert (length K = 8%nat) as HK.
  { unfold DES.new, len in Hnew.
    destruct (Z.eqb_spec (Z.of_nat (length K)) 8); [lia|done]. }
  destruct (new_spec K HK) as (s1 & k56 & H1 & Hkey & Hpc1 & Hn & Hsks).
  destruct (new_spec (cpl_byte <$> K)) as (s2 & k56' & H2 & Hkey' & Hpc1' & Hn' & Hsks');
    [by rewrite length_fmap|].
  assert (s1 = self) as -> by congruence. assert (s2 = self') as -> by congruence.
  pose proof (bytes_to_bit_array_bits K) as Hkb. rewrite HK in Hkb.
  unfold _permuted_choice_1 in Hpc1, Hpc1'.
  rewrite Hkey in Hpc1. rewrite Hkey', bytes_to_bit_array_cpl in Hpc1'.
  destruct (permute_bits_Ok 64 _ PC1 Hkb eq_refl) as [Hp H56].
  destruct (permute_bits_Ok 64 _ PC1 (bits_cpl _ _ Hkb) eq_refl) as [Hp' _].
  rewrite permute_total_fmap in Hp' by (unfold len; by rewrite (proj1 Hkb)).
  change (length PC1) with 56%nat in H56.
  set (k := sel (_bytes_to_bit_array K) <$> PC1) in *. clearbody k.
  rewrite Hp in Hpc1. rewrite Hp' in Hpc1'.
  apply Ok_inj in Hpc1, Hpc1'. subst k56 k56'.
  apply list_eq. intros i. rewrite list_lookup_fmap.
  destruct (decide (i < 16)%nat) as [Hi|Hi].
  - destruct (Hsks i Hi) as (sk & -> & Hskb & Hs).
    destruct (Hsks' i Hi) as (sk' & -> & _ & Hs'). simpl. f_equal.
    change 28 with (Z.of_nat 28) in *.
    rewrite slice_to_nat, slice_from_nat in Hs
      by (rewrite ?length_fmap, (proj1 H56); lia).
    rewrite slice_to_nat, slice_from_nat in Hs'
      by (rewrite ?length_fmap, (proj1 H56); lia).
    rewrite <- fmap_take, <- fmap_drop, !spec_half_fmap, <- fmap_app in Hs'.
    assert (bits 56 (spec_half (take 28 k) (S i) ++ spec_half (drop 28 k) (S i)))
      as Hcd.
    { apply (bits_app 28 28); apply spec_half_bits.
      - apply (bits_take 56); [lia|done].
      - by apply (bits_drop 56 28). }
    unfold _permuted_choice_2 in *.
    destruct (permute_bits_Ok 56 _ PC2 Hcd eq_refl) as [Hq _].
    destruct (permute_bits_Ok 56 _ PC2 (bits_cpl _ _ Hcd) eq_refl) as [Hq' _].
    rewrite Hq in Hs. rewrite Hq' in Hs'.
    apply Ok_inj in Hs, Hs'. subst sk sk'.
    apply permute_total_fmap. unfold len. by rewrite (proj1 Hcd).
  - rewrite !lookup_ge_None_2 by lia. done.
Qed.

(** X26: complementing every bit of the key and of the block complements
    every bit of the ciphertext block. *)
Theorem encrypt_block_complement (K : list byte) (B : list Z) :
  length K = 8%nat -> bits 64 B ->
  exists self self' C,
    DES.new K = Ok self /\ DES.new (cpl_byte <$> K) = Ok self'
    /\ encrypt_block self B = Ok C
    /\ encrypt_block self' (cpl <$> B) = Ok (cpl <$> C).
Proof.
  intros HK HB. destruct (new_Ok K HK) as (self & Hnew & Hwf).
  destruct (new_Ok (cpl_byte <$> K)) as (self' & Hnew' & _);
    [by rewrite length_fmap|].
  destruct (encrypt_block_Ok self B Hwf HB) as (C & HC & _).
  exists self, self', C. split_and!; [done..|].
  apply (encrypt_block_cpl self); [done| |done..].
  by apply (subkeys_cpl K).
Qed.

Lemma encrypt_block_complement_witness :
  length key_fips = 8%nat /\ bits 64 (_bytes_to_bit_array pt_fips)
  /\ exists self self' C,
       DES.new key_fips = Ok self /\ DES.new (cpl_byte <$> key_fips) = Ok self'
       /\ encrypt_block self (_bytes_to_bit_array pt_fips) = Ok C
       /\ encrypt_block self' (cpl <$> _bytes_to_bit_array pt_fips)
          = Ok (cpl <$> C).
Proof.
  split; [reflexivity|]. split; [exact (bytes_to_bit_array_bits pt_fips)|].
  exact (encrypt_block_complement key_fips _ eq_refl
           (bytes_to_bit_array_bits pt_fips)).
Defined.

(** * Properties of [network_communication.py] *)

(** ** The length prefix *)







Lemma from_bytes_nonneg (bs : list byte) : 0 <= Net.from_bytes bs.
Proof.
  unfold Net.from_bytes.
  assert (forall a, 0 <= a ->
            0 <= foldl (fun a b => 256 * a + int_of_byte b) a bs) as H;
    [|by apply H].
  induction bs as [|b bs IH]; intros a Ha; [done|].
  cbn [foldl]. apply IH. pose proof (int_of_byte_nonneg b). lia.
Qed.

(** ** The socket *)

Lemma recv_spec (s : Net.socket) (n : Z) (seg : list byte) segs :
  Net.arriving s = seg :: segs -> live s -> 0 < n ->
  exists (k : nat) s',
    Net.recv s n = (take k seg, s')
    /\ k = Z.to_nat (Z.min n (len seg)) /\ (1 <= k)%nat
    /\ pending s' = drop k seg ++ concat segs
    /\ live s' /\ Net.sent s' = Net.sent s.
Proof.
  intros Harr Hlive Hn. unfold live in Hlive. rewrite Harr in Hlive.
  inversion_clear Hlive as [|? ? Hseg Hsegs].
  assert (0 < len seg) as Hlen.
  { unfold len. destruct seg; [done|]. simpl. lia. }
  exists (Z.to_nat (Z.min n (len seg))). unfold Net.recv. rewrite Harr.
  destruct (Z.leb_spec (len seg) n) as [Hle|Hgt].
  - exists (Net.mk_socket (Net.sent s) segs). split_and!; [|done|lia| |done|done].
    + rewrite take_ge; [done|]. unfold len in *. lia.
    + unfold pending. cbn [Net.arriving]. rewrite drop_ge; [done|].
      unfold len in *. lia.
  - exists (Net.mk_socket (Net.sent s) (slice_from seg n :: segs)).
    split_and!; [|done|lia| | |done].
    + f_equal. replace (Z.min n (len seg)) with n by lia.
      rewrite <- (Z2Nat.id n) at 1 by lia. apply slice_to_nat.
      unfold len in *. lia.
    + unfold pending. cbn [Net.arriving concat]. f_equal.
      replace (Z.min n (len seg)) with n by lia.
      rewrite <- (Z2Nat.id n) at 1 by lia. apply slice_from_nat.
      unfold len in *. lia.
    + unfold live. cbn [Net.arriving]. constructor; [|done].
      rewrite <- (Z2Nat.id n) by lia. rewrite slice_from_nat by (unfold len in *; lia).
      intros Hnil. apply (f_equal length) in Hnil. rewrite length_drop in Hnil.
      unfold len in *. simpl in Hnil. lia.
Qed.

(** The [while remaining > 0] loop: with [remaining] bytes still to
    come it collects exactly those, whatever the segments are, and
    [remaining] iterations are enough. *)
Lemma recv_loop_collect (fuel : nat) : forall (s : Net.socket) acc (rem : Z),
  live s -> 0 <= rem <= len (pending s) -> (Z.to_nat rem <= fuel)%nat ->
  exists s', Net.recv_loop fuel s acc rem
             = Net.Received (acc ++ take (Z.to_nat rem) (pending s)) s'
             /\ pending s' = drop (Z.to_nat rem) (pending s)
             /\ live s' /\ Net.sent s' = Net.sent s.
Proof.
  induction fuel as [|fuel IH]; intros s acc rem Hlive Hrem Hfuel.
  - assert (rem = 0) as -> by lia. exists s. simpl.
    by rewrite app_nil_r.
  - destruct (Z.ltb_spec 0 rem) as [Hpos|Hz].
    2:{ assert (rem = 0) as -> by lia. exists s. simpl. by rewrite app_nil_r. }
    destruct (Net.arriving s) as [|seg segs] eqn:Harr.
    { unfold pending in Hrem. rewrite Harr in Hrem. unfold len in Hrem.
      simpl in Hrem. lia. }
    destruct (recv_spec s (Z.min 4096 rem) seg segs Harr Hlive ltac:(lia))
      as (k & s' & Hrecv & Hk & Hk1 & Hpend & Hlive' & Hsent).
    assert (pending s = take k seg ++ pending s') as Hsplit.
    { unfold pending at 1. rewrite Harr, Hpend. cbn [concat].
      by rewrite app_assoc, take_drop. }
    assert (length (take k seg) = k) as Hlk.
    { rewrite length_take. unfold len in Hk. lia. }
    cbn [Net.recv_loop]. destruct (Z.ltb_spec 0 rem) as [_|]; [|lia].
    rewrite Hrecv. destruct (take k seg) as [|b chunk] eqn:Hchunk.
    { simpl in Hlk. lia. }
    rewrite <- Hchunk in *. clear Hchunk b chunk.
    destruct (IH s' (acc ++ take k seg) (rem - len (take k seg)))
      as (s'' & Hloop & Hpend'' & Hlive'' & Hsent''); [done| | |].
    { rewrite Hsplit in Hrem. unfold len in *. rewrite length_app in Hrem. lia. }
    { unfold len. lia. }
    assert (Z.to_nat (rem - len (take k seg)) = (Z.to_nat rem - k)%nat) as Hsub
      by (unfold len; lia).
    rewrite Hsub in Hloop, Hpend''.
    exists s''. rewrite Hloop. split_and!; [| |done|congruence].
    + f_equal. rewrite <- app_assoc. f_equal. rewrite Hsplit.
      rewrite take_app, Hlk. f_equal. symmetry. apply take_ge. lia.
    + rewrite Hpend'', Hsplit. rewrite drop_app, Hlk.
      by rewrite (drop_ge (take k seg)) by lia.
Qed.

(** With fewer bytes to come the loop meets the closed connection. *)
Lemma recv_loop_closed (fuel : nat) : forall (s : Net.socket) acc (rem : Z),
  live s -> len (pending s) < rem -> (Z.to_nat rem <= fuel)%nat ->
  exists s', Net.recv_loop fuel s acc rem = Net.Closed s'
             /\ Net.arriving s' = [] /\ Net.sent s' = Net.sent s.
Proof.
  induction fuel as [|fuel IH]; intros s acc rem Hlive Hrem Hfuel.
  { unfold len in Hrem. lia. }
  assert (0 < rem) as Hpos by (unfold len in Hrem; lia).
  cbn [Net.recv_loop]. destruct (Z.ltb_spec 0 rem) as [_|]; [|lia].
  destruct (Net.arriving s) as [|seg segs] eqn:Harr.
  { exists s. unfold Net.recv. by rewrite Harr. }
  destruct (recv_spec s (Z.min 4096 rem) seg segs Harr Hlive ltac:(lia))
    as (k & s' & Hrecv & Hk & Hk1 & Hpend & Hlive' & Hsent).
  assert (pending s = take k seg ++ pending s') as Hsplit.
  { unfold pending at 1. rewrite Harr, Hpend. cbn [concat].
    by rewrite app_assoc, take_drop. }
  assert (length (take k seg) = k) as Hlk.
  { rewrite length_take. unfold len in Hk. lia. }
  rewrite Hrecv. destruct (take k seg) as [|b chunk] eqn:Hchunk.
  { simpl in Hlk. lia. }
  rewrite <- Hchunk in *. clear Hchunk b chunk.
  destruct (IH s' (acc ++ take k seg) (rem - len (take k seg)))
    as (s'' & Hloop & Harr'' & Hsent''); [done| | |].
  { rewrite Hsplit in Hrem. unfold len in *. rewrite length_app in Hrem. lia. }
  { unfold len. lia. }
  exists s''. split_and!; [done|done|congruence].
Qed.

(** ** [send_message] and [receive_message] *)


Lemma receive_message_unfold (self : Net.t) (conn : Net.socket) seg segs :
  Net.connection self = Some conn -> live conn ->
  Net.arriving conn = seg :: segs ->
  exists conn1,
    pending conn1 = drop 4 seg ++ concat segs
    /\ live conn1 /\ Net.sent conn1 = Net.sent conn
    /\ Net.receive_message self
       = let n := Net.from_bytes (take 4 seg) in
         match Net.recv_loop (Z.to_nat n) conn1 [] n with
         | Net.Received encrypted_message conn' =>
             match decrypt (Net.des self) encrypted_message with
             | Ok decrypted =>
                 (Some decrypted, Net.mk (Net.des self) (Some conn'))
             | Raise _ => (None, Net.mk (Net.des self) (Some conn'))
             end
         | Net.Closed conn' => (None, Net.mk (Net.des self) (Some conn'))
         | Net.OutOfFuel => (None, Net.mk (Net.des self) (Some conn1))
         end.
Proof.
  intros Hconn Hlive Harr.
  destruct (recv_spec conn 4 seg segs Harr Hlive ltac:(lia))
    as (k & conn1 & Hrecv & Hk & Hk1 & Hpend & Hlive1 & Hsent).
  assert (take k seg = take 4 seg /\ drop k seg = drop 4 seg) as [Ht Hd].
  { destruct (Z.leb_spec (len seg) 4) as [Hle|Hgt]; unfold len in *.
    - rewrite !take_ge, !drop_ge by lia. done.
    - by replace k with 4%nat by lia. }
  rewrite Ht in Hrecv. rewrite Hd in Hpend.
  exists conn1. split_and!; [done..|].
  unfold Net.receive_message, Net.decrypt_message. rewrite Hconn, Hrecv.
  destruct (take 4 seg) as [|b h] eqn:Hh; [|done].
  apply (f_equal length) in Ht. rewrite length_take in Ht.
  unfold len in Hk. simpl in Ht. lia.
Qed.






(** X28: [receive_message] on a connection with data to come.  The
    first [recv] yields at most four bytes of the first segment; they are
    read as the big-endian length [n] whether or not they are four.  If
    at least [n] bytes follow, the call consumes exactly those, however
    they are segmented, and returns their decryption ([None] if [decrypt]
    raises), leaving the rest of the stream; otherwise it drains the
    connection and returns [None]. *)
Theorem receive_message_stream (self : Net.t) (conn : Net.socket)
    (seg : list byte) (segs : list (list byte)) :
  Net.connection self = Some conn -> live conn ->
  Net.arriving conn = seg :: segs ->
  let n := Net.from_bytes (take 4 seg) in
  let body := drop 4 seg ++ concat segs in
  exists conn',
    Net.sent conn' = Net.sent conn
    /\ if n <=? len body
       then pending conn' = drop (Z.to_nat n) body
            /\ Net.receive_message self
               = (match decrypt (Net.des self) (take (Z.to_nat n) body) with
                  | Ok pt => Some pt
                  | Raise _ => None
                  end, Net.mk (Net.des self) (Some conn'))
       else Net.arriving conn' = []
            /\ Net.receive_message self
               = (None, Net.mk (Net.des self) (Some conn')).
Proof.
  intros Hconn Hlive Harr n body.
  destruct (receive_message_unfold self conn seg segs Hconn Hlive Harr)
    as (conn1 & Hpend1 & Hlive1 & Hsent1 & ->).
  fold n. cbv zeta. fold body in Hpend1.
  pose proof (from_bytes_nonneg (take 4 seg)) as Hn. fold n in Hn.
  destruct (Z.leb_spec n (len body)) as [Hle|Hgt].
  - destruct (recv_loop_collect (Z.to_nat n) conn1 [] n)
      as (conn' & -> & Hpend' & _ & Hsent'); [done| |done|].
    { rewrite Hpend1. lia. }
    exists conn'. rewrite Hpend1 in *. cbn [app].
    split_and!; [congruence|done|].
    by destruct (decrypt _ _).
  - destruct (recv_loop_closed (Z.to_nat n) conn1 [] n)
      as (conn' & -> & Harr' & Hsent'); [done| |done|].
    { rewrite Hpend1. lia. }
    exists conn'. split_and!; [congruence|done..].
Qed.

Lemma receive_message_stream_witness :
  Net.connection receiver_fips = Some conn_fips /\ live conn_fips
  /\ Net.arriving conn_fips
     = [x00; x00; x00; x08; x85; xe8]
       :: [[x13; x54; x0f; x0a; xb4; x05]; [x00; x00]]
  /\ exists conn',
       Net.sent conn' = Net.sent conn_fips
       /\ pending conn' = [x00; x00]
       /\ Net.receive_message receiver_fips
          = (Some pt_fips, Net.mk self_fips (Some conn')).
Proof.
  assert (live conn_fips) as Hlive.
  { unfold live, conn_fips. cbn [Net.arriving]. by repeat constructor. }
  split; [reflexivity|]. split; [exact Hlive|]. split; [reflexivity|].
  destruct (receive_message_stream receiver_fips conn_fips _ _
              eq_refl Hlive eq_refl) as (conn' & Hsent & H).
  vm_compute in H. destruct H as [Hpend Hrecv]. by exists conn'.
Defined.




